(** * mow.cli: parameter kinds, environment fallback and option names

    A shallow embedding of [options.go], [args.go] and [utils.go].

    Go strings are byte strings: they are modelled by [string], whose
    characters are the 256 byte values.  Go's [int] is taken to be 64 bits
    wide.  Pointers are locations of a typed heap; a location outside the
    heap's domain plays the role of [nil].  Methods with a pointer receiver
    run in a small state monad over the receiver and the heap, in which a
    Go panic is a distinguished outcome. *)

From stdpp Require Import gmap strings list fin_maps.
From Stdlib Require Import ZArith Ascii.

Local Open Scope Z_scope.

(** ** The parts of Go's [strings] package used by the source *)

Module strings.

(** [strings.Split(s, sep)] for a separator of one byte, the only way the
    source calls it ([" "] and [","]): the pieces between the occurrences
    of [sep]; [n] occurrences give [n + 1] pieces, so the empty string
    gives one empty piece. *)
Fixpoint Split (s : string) (sep : ascii) : list string :=
  match s with
  | EmptyString => [EmptyString]
  | String c s' =>
      if decide (c = sep) then EmptyString :: Split s' sep
      else match Split s' sep with
           | piece :: pieces => String c piece :: pieces
           | [] => [String c EmptyString]
           end
  end.

(** The code points with Unicode's White_Space property, the table behind
    [unicode.IsSpace]. *)
Definition White_Space : list N :=
  [ 0x09; 0x0A; 0x0B; 0x0C; 0x0D; 0x20; 0x85; 0xA0; 0x1680;
    0x2000; 0x2001; 0x2002; 0x2003; 0x2004; 0x2005; 0x2006; 0x2007;
    0x2008; 0x2009; 0x200A; 0x2028; 0x2029; 0x202F; 0x205F; 0x3000 ]%N.

Definition byte (n : N) : ascii := ascii_of_N n.

(** [utf8.EncodeRune] on the basic multilingual plane. *)
Definition EncodeRune (r : N) : string :=
  (if r <? 0x80 then String (byte r) EmptyString
   else if r <? 0x800 then
     String (byte (0xC0 + r / 64))
       (String (byte (0x80 + r mod 64)) EmptyString)
   else
     String (byte (0xE0 + r / 4096))
       (String (byte (0x80 + (r / 64) mod 64))
          (String (byte (0x80 + r mod 64)) EmptyString)))%N.

Definition spaceRunes : list string := EncodeRune <$> White_Space.

(** [strings.CutPrefix]. *)
Fixpoint CutPrefix (s prefix : string) {struct prefix} : option string :=
  match prefix, s with
  | EmptyString, _ => Some s
  | String a prefix', String b s' =>
      if decide (a = b) then CutPrefix s' prefix' else None
  | String _ _, EmptyString => None
  end.

(** Remove one leading rune of [runes] from [s], if there is one. *)
Definition cutRune (runes : list string) (s : string) : option string :=
  foldr (λ r rest, match CutPrefix s r with Some t => Some t | None => rest end)
        None runes.

Fixpoint trimRunes (runes : list string) (fuel : nat) (s : string) : string :=
  match fuel with
  | O => s
  | S fuel' =>
      match cutRune runes s with
      | Some t => trimRunes runes fuel' t
      | None => s
      end
  end.

(** [strings.TrimSpace]: [s] without its leading and trailing white space
    runes.  A white space rune is recognised at the front of a string by
    its UTF-8 encoding and at the back by the same encoding read
    backwards; every removal takes at least one byte, so the length of
    the string is enough fuel. *)
Definition TrimLeftSpace (s : string) : string :=
  trimRunes spaceRunes (String.length s) s.

Definition TrimRightSpace (s : string) : string :=
  String.rev
    (trimRunes (String.rev <$> spaceRunes) (String.length s) (String.rev s)).

Definition TrimSpace (s : string) : string :=
  TrimRightSpace (TrimLeftSpace s).

End strings.

(** ** Option names ([options.go]) *)

(** The body of the loop of [mkOptStrs]: the dashes put before [name]. *)
Definition optPrefix (name : string) : string :=
  if decide (1 < String.length name)%nat then "--" else "-".

(** [for i, name := range namesSl { ...; namesSl[i] = prefix + name }],
    the iterations from index [i] on, [k] of them left. *)
Fixpoint mkOptStrs_range (k i : nat) (namesSl : list string) : list string :=
  match k with
  | O => namesSl
  | S k' =>
      match namesSl !! i with
      | Some name =>
          let prefix := optPrefix name in
          mkOptStrs_range k' (S i) (<[i := prefix +:+ name]> namesSl)
      | None => namesSl
      end
  end.

Definition mkOptStrs (optName : string) : list string :=
  let namesSl := strings.Split optName " " in
  mkOptStrs_range (length namesSl) 0 namesSl.

(** The number of characters of a string, read as UTF-8: every byte that
    is not a continuation byte (one of the form 10xxxxxx) begins a
    character. *)
Definition continuation (c : ascii) : bool :=
  ((128 <=? N_of_ascii c) && (N_of_ascii c <? 192))%N.

Fixpoint characters (s : string) : nat :=
  match s with
  | EmptyString => O
  | String c s' => ((if continuation c then 0 else 1) + characters s')%nat
  end.




(** ** The parts of Go's [strconv] package used by the source *)

Module strconv.

Inductive NumErr := ErrSyntax | ErrRange.

#[global] Instance NumErr_eq_dec : EqDecision NumErr.
Proof. solve_decision. Defined.

(** [strconv.NumError]: the function that failed, its input, the reason. *)
Record NumError := mkNumError { Func : string; Num : string; Err : NumErr }.

Definition syntaxError (fn str : string) : NumError := mkNumError fn str ErrSyntax.
Definition rangeError (fn str : string) : NumError := mkNumError fn str ErrRange.

(** [strconv.ParseBool]. *)
Definition ParseBool (str : string) : bool * option NumError :=
  if decide (str ∈ ["1"; "t"; "T"; "true"; "TRUE"; "True"]) then (true, None)
  else if decide (str ∈ ["0"; "f"; "F"; "false"; "FALSE"; "False"]) then (false, None)
  else (false, Some (syntaxError "ParseBool" str)).

(** Conversions to [uint64] and [int64], with their wrap-around. *)
Definition uint64 (z : Z) : Z := z mod 2 ^ 64.
Definition int64 (z : Z) : Z := (z + 2 ^ 63) mod 2 ^ 64 - 2 ^ 63.

Definition maxUint64 : Z := 2 ^ 64 - 1.

Definition code (c : ascii) : Z := Z.of_N (N_of_ascii c).

(** [lower(c)] is [c | ('x' - 'X')]. *)
Definition lower (c : Z) : Z := Z.lor c 32.

(** The value of the byte [c] as a digit, when it is a digit or a letter. *)
Definition digit (c : Z) : option Z :=
  if (48 <=? c) && (c <=? 57) then Some (c - 48)
  else if (97 <=? lower c) && (lower c <=? 122) then Some (lower c - 97 + 10)
  else None.

(** The loop of [strconv.ParseUint] over the bytes of the string, for a
    base between 2 and 36 given explicitly (no underscores, no base
    prefix).  The first offending byte ends the loop: a byte that is no
    digit of the base is a syntax error, a digit that makes the number
    exceed [maxVal] is a range error. *)
Fixpoint ParseUint_loop (base cutoff maxVal : Z) (cs : string) (n : Z)
  : Z * option NumErr :=
  match cs with
  | EmptyString => (n, None)
  | String c cs' =>
      match digit (code c) with
      | None => (0, Some ErrSyntax)
      | Some d =>
          if base <=? d then (0, Some ErrSyntax)
          else if cutoff <=? n then (maxVal, Some ErrRange)
          else
            let n := uint64 (n * base) in
            let n1 := uint64 (n + d) in
            if (n1 <? n) || (maxVal <? n1) then (maxVal, Some ErrRange)
            else ParseUint_loop base cutoff maxVal cs' n1
      end
  end.

Definition ParseUint (s : string) (base bitSize : Z) : Z * option NumError :=
  if decide (s = "") then (0, Some (syntaxError "ParseUint" s))
  else
    let cutoff := maxUint64 / base + 1 in
    let maxVal := 2 ^ bitSize - 1 in
    match ParseUint_loop base cutoff maxVal s 0 with
    | (n, None) => (n, None)
    | (n, Some e) => (n, Some (mkNumError "ParseUint" s e))
    end.

(** [strconv.ParseInt]: an optional sign, then [ParseUint], then the check
    of the signed range. *)
Definition ParseInt (s : string) (base bitSize : Z) : Z * option NumError :=
  if decide (s = "") then (0, Some (syntaxError "ParseInt" s))
  else
    let s0 := s in
    let '(neg, s) :=
      match s with
      | String "+" s' => (false, s')
      | String "-" s' => (true, s')
      | _ => (false, s)
      end in
    let '(un, err) := ParseUint s base bitSize in
    let syntax := match err with Some e => bool_decide (Err e ≠ ErrRange) | None => false end in
    if syntax then (0, Some (syntaxError "ParseInt" s0))
    else
      let cutoff := uint64 (2 ^ (bitSize - 1)) in
      if negb neg && (cutoff <=? un) then (int64 (cutoff - 1), Some (rangeError "ParseInt" s0))
      else if neg && (cutoff <? un) then (int64 (- int64 cutoff), Some (rangeError "ParseInt" s0))
      else
        let n := int64 un in
        let n := if neg then int64 (- n) else n in
        (n, None).

(** [strconv.FormatInt]: the loop of [formatBits] writes the digits of [u]
    from the last one to the first in front of [a]; the buffer of the
    source has room for 65 bytes, which bounds the number of iterations. *)
Definition digits : string := "0123456789abcdefghijklmnopqrstuvwxyz".

Definition digitAt (d : Z) : ascii :=
  default "000"%char (String.get (Z.to_nat d) digits).

Fixpoint formatBits_loop (fuel : nat) (b u : Z) (a : string) : string :=
  match fuel with
  | O => a
  | S fuel' =>
      if b <=? u then
        let q := u / b in
        formatBits_loop fuel' b q (String (digitAt (u - q * b)) a)
      else String (digitAt u) a
  end.

Definition formatBits (u : Z) (base : Z) (neg : bool) : string :=
  let u := if neg then uint64 (- u) else u in
  let a := formatBits_loop 65 base u "" in
  if neg then String "-" a else a.

Definition FormatInt (i : Z) (base : Z) : string :=
  formatBits (uint64 i) base (i <? 0).

End strconv.

(** The conversion [int(i)] of an [int64], [int] being 64 bits wide. *)
Definition int (i : Z) : Z := (i + 2 ^ 63) mod 2 ^ 64 - 2 ^ 63.

(** [fmt.Sprintf("%v", b)] for a boolean. *)
Definition Sprintf_v_bool (b : bool) : string := if b then "true" else "false".

(** Go's [error] values: the ones of [strconv], or any other. *)
Inductive error :=
| NumError (e : strconv.NumError)
| errorString (msg : string).

(** ** Pointers, the heap and panics *)

Abbreviation loc := positive (only parsing).

(** The five parameter structs all are [struct { into *T }]. *)
Record param (A : Type) := Param { into : loc }.
Arguments Param {A} _.
Arguments into {A} _.

Abbreviation boolParam := (param bool).
Abbreviation stringParam := (param string).
Abbreviation intParam := (param Z).
Abbreviation stringsParam := (param (list string)).
Abbreviation intsParam := (param (list Z)).

(** What a call does to a state [S]: it returns a value, or it panics. *)
Inductive outcome (S A : Type) :=
| Done (a : A) (s : S)
| Panic (msg : string).
Arguments Done {S A} _ _.
Arguments Panic {S A} _.

Definition M (S A : Type) : Type := S → outcome S A.

#[global] Instance M_ret {S} : MRet (M S) := λ A a s, Done a s.
#[global] Instance M_bind {S} : MBind (M S) := λ A B f m s,
  match m s with
  | Done a s' => f a s'
  | Panic msg => Panic msg
  end.

Definition nilDeref : string := "invalid memory address or nil pointer dereference".

(** The state a method of a [param A] runs in: the receiver and the heap of
    the variables of type [A] that [into] pointers point to. *)
Abbreviation state A := (param A * gmap positive A)%type (only parsing).

Section pointers.
Context {A : Type}.

(** [*p.into] read. *)
Definition load : M (state A) A := λ '(p, h),
  match h !! into p with
  | Some v => Done v (p, h)
  | None => Panic nilDeref
  end.

(** [*p.into = v]. *)
Definition store (v : A) : M (state A) () := λ '(p, h),
  match h !! into p with
  | Some _ => Done () (p, <[into p := v]> h)
  | None => Panic nilDeref
  end.

(** [&newValue] for a local variable [newValue] that escapes: a variable of
    the heap that nothing else points to yet. *)
Definition new (v : A) : M (state A) loc := λ '(p, h),
  let l := fresh (dom h) in Done l (p, <[l := v]> h).

(** [p.into = l]. *)
Definition set_into (l : loc) : M (state A) () := λ '(p, h), Done () (Param l, h).

End pointers.

(** ** The parameter kinds ([options.go]) *)

(** *** BOOL *)

Definition boolParam_Set (s : string) : M (state bool) (option error) :=
  let '(b, err) := strconv.ParseBool s in
  match err with
  | Some e => mret (Some (NumError e))
  | None => _ ← store b; mret None
  end.

Definition boolParam_IsBoolFlag : state bool → bool := λ _, true.

Definition boolParam_String : M (state bool) string :=
  b ← load; mret (Sprintf_v_bool b).

(** *** STRING *)

Definition stringParam_Set (s : string) : M (state string) (option error) :=
  _ ← store s; mret None.

(** *** INT *)

Definition intParam_Set (s : string) : M (state Z) (option error) :=
  let '(i, err) := strconv.ParseInt s 10 64 in
  match err with
  | Some e => mret (Some (NumError e))
  | None => _ ← store (int i); mret None
  end.

(** *** STRINGS *)

(** The [append] to [*p.into].  A slice variable is modelled by the
    sequence of its elements: the heap says what each variable holds, and
    how much of a backing array two slice variables share is no part of
    it.  After an [append] the model is meant for the variable that [into]
    points to only, and the properties of [Set] on the repeated kinds are
    stated for that variable. *)
Definition stringsParam_Set (s : string) : M (state (list string)) (option error) :=
  old ← load; _ ← store (old ++ [s]); mret None.

Definition stringsParam_IsMultiValued : state (list string) → bool := λ _, true.

(** The loop of [stringsParam.SetMulti] over [vs], from index [idx] on: it
    fills the slice [newValue], made with the length of [vs], so that the
    index always is within the slice. *)
Fixpoint stringsParam_SetMulti_range (idx : nat) (vs : list string)
    (newValue : list string) : list string :=
  match vs with
  | [] => newValue
  | v :: vs' =>
      let v := strings.TrimSpace v in
      stringsParam_SetMulti_range (S idx) vs' (<[idx := v]> newValue)
  end.

Definition stringsParam_SetMulti (vs : list string)
  : M (state (list string)) (option error) :=
  let newValue := replicate (length vs) "" in
  let newValue := stringsParam_SetMulti_range 0 vs newValue in
  l ← new newValue; _ ← set_into l; mret None.

(** *** INTS *)

(** The [append] is modelled as in [stringsParam_Set]: on the variable
    that [into] points to. *)
Definition intsParam_Set (s : string) : M (state (list Z)) (option error) :=
  let '(i, err) := strconv.ParseInt s 10 64 in
  match err with
  | Some e => mret (Some (NumError e))
  | None => old ← load; _ ← store (old ++ [int i]); mret None
  end.

Definition intsParam_IsMultiValued : state (list Z) → bool := λ _, true.

(** The loop of [intsParam.SetMulti]: the local slice [newValue] after the
    elements [vs], or the error that ends the loop early. *)
Fixpoint intsParam_SetMulti_range (vs : list string) (newValue : list Z)
  : error + list Z :=
  match vs with
  | [] => inr newValue
  | v :: vs' =>
      let v := strings.TrimSpace v in
      if decide (v = "") then intsParam_SetMulti_range vs' newValue
      else
        let '(i, err) := strconv.ParseInt v 10 64 in
        match err with
        | Some e => inl (NumError e)
        | None => intsParam_SetMulti_range vs' (newValue ++ [int i])
        end
  end.

Definition intsParam_SetMulti (vs : list string)
  : M (state (list Z)) (option error) :=
  match intsParam_SetMulti_range vs [] with
  | inl err => mret (Some err)
  | inr newValue => l ← new newValue; _ ← set_into l; mret None
  end.

(** ** The argument kinds ([args.go])

    An argument struct embeds a pointer to its parameter struct, and its
    methods reach [into] through it; the other fields of the receiver are
    not touched.  The methods are therefore state transformers on the
    embedded parameter and the heap, like those of [options.go]. *)

Definition StringArg_Set (s : string) : M (state string) (option error) :=
  _ ← store s; mret None.

Definition IntArg_Set (s : string) : M (state Z) (option error) :=
  let '(i, err) := strconv.ParseInt s 10 64 in
  match err with
  | Some e => mret (Some (NumError e))
  | None => _ ← store (int i); mret None
  end.

Definition StringsArg_Set (s : string) : M (state (list string)) (option error) :=
  old ← load; _ ← store (old ++ [s]); mret None.

Fixpoint StringsArg_SetMulti_range (idx : nat) (vs : list string)
    (newValue : list string) : list string :=
  match vs with
  | [] => newValue
  | v :: vs' =>
      let v := strings.TrimSpace v in
      StringsArg_SetMulti_range (S idx) vs' (<[idx := v]> newValue)
  end.

Definition StringsArg_SetMulti (vs : list string)
  : M (state (list string)) (option error) :=
  let newValue := replicate (length vs) "" in
  let newValue := StringsArg_SetMulti_range 0 vs newValue in
  l ← new newValue; _ ← set_into l; mret None.

Definition IntsArg_Set (s : string) : M (state (list Z)) (option error) :=
  let '(i, err) := strconv.ParseInt s 10 64 in
  match err with
  | Some e => mret (Some (NumError e))
  | None => old ← load; _ ← store (old ++ [int i]); mret None
  end.

Fixpoint IntsArg_SetMulti_range (vs : list string) (newValue : list Z)
  : error + list Z :=
  match vs with
  | [] => inr newValue
  | v :: vs' =>
      let v := strings.TrimSpace v in
      if decide (v = "") then IntsArg_SetMulti_range vs' newValue
      else
        let '(i, err) := strconv.ParseInt v 10 64 in
        match err with
        | Some e => inl (NumError e)
        | None => IntsArg_SetMulti_range vs' (newValue ++ [int i])
        end
  end.

Definition IntsArg_SetMulti (vs : list string)
  : M (state (list Z)) (option error) :=
  match IntsArg_SetMulti_range vs [] with
  | inl err => mret (Some err)
  | inr newValue => l ← new newValue; _ ← set_into l; mret None
  end.

(** ** The interfaces *)

(** The interface [multiValued], for a value whose state is [S]. *)
Record multiValued (S : Type) := MultiValued {
  IsMultiValued : S → bool;
  SetMulti : list string → M S (option error)
}.
Arguments MultiValued {S} _ _.
Arguments IsMultiValued {S} _ _.
Arguments SetMulti {S} _ _.

(** A [flag.Value] whose state is [S]: its method [Set], and the outcome of
    the type assertion [v.(multiValued)], which gives the two further
    methods when the dynamic type of the value has them.  ([String] is not
    called by the functions modelled here.) *)
Record Value (S : Type) := MkValue {
  Set' : string → M S (option error);
  as_multiValued : option (multiValued S)
}.
Arguments MkValue {S} _ _.
Arguments Set' {S} _ _.
Arguments as_multiValued {S} _.

Definition boolValue : Value (state bool) := MkValue boolParam_Set None.
Definition stringValue : Value (state string) := MkValue stringParam_Set None.
Definition intValue : Value (state Z) := MkValue intParam_Set None.
Definition stringsValue : Value (state (list string)) :=
  MkValue stringsParam_Set
    (Some (MultiValued stringsParam_IsMultiValued stringsParam_SetMulti)).
Definition intsValue : Value (state (list Z)) :=
  MkValue intsParam_Set
    (Some (MultiValued intsParam_IsMultiValued intsParam_SetMulti)).

(** ** User-settable options and arguments *)

Record VarOpt (S : Type) := MkVarOpt {
  VarOpt_Name : string;
  VarOpt_Desc : string;
  VarOpt_EnvVar : string;
  VarOpt_Value : Value S;
  VarOpt_HideValue : bool
}.
Arguments MkVarOpt {S} _ _ _ _ _.
Arguments VarOpt_Value {S} _.

Definition VarOpt_Set {S} (vo : VarOpt S) (s : string) : M S (option error) :=
  Set' (VarOpt_Value vo) s.

Definition VarOpt_IsMultiValued {S} (vo : VarOpt S) : S → bool := λ s,
  match as_multiValued (VarOpt_Value vo) with
  | Some bf => IsMultiValued bf s
  | None => false
  end.

Definition VarOpt_SetMulti {S} (vo : VarOpt S) (vs : list string)
  : M S (option error) := λ s,
  match as_multiValued (VarOpt_Value vo) with
  | None => Panic "Bug"
  | Some mv =>
      if negb (IsMultiValued mv s) then Panic "Bug"
      else SetMulti mv vs s
  end.

Record VarArg (S : Type) := MkVarArg {
  VarArg_Name : string;
  VarArg_Desc : string;
  VarArg_EnvVar : string;
  VarArg_Value : Value S;
  VarArg_HideValue : bool
}.
Arguments MkVarArg {S} _ _ _ _ _.
Arguments VarArg_Value {S} _.

Definition VarArg_Set {S} (va : VarArg S) (s : string) : M S (option error) :=
  Set' (VarArg_Value va) s.

Definition VarArg_IsMultiValued {S} (va : VarArg S) : S → bool := λ s,
  match as_multiValued (VarArg_Value va) with
  | Some bf => IsMultiValued bf s
  | None => false
  end.

Definition VarArg_SetMulti {S} (va : VarArg S) (vs : list string)
  : M S (option error) := λ s,
  match as_multiValued (VarArg_Value va) with
  | None => Panic "Bug"
  | Some mv =>
      if negb (IsMultiValued mv s) then Panic "Bug"
      else SetMulti mv vs s
  end.

(** ** Environment fallback ([utils.go]) *)

(** [os.Getenv]: the value of the variable, empty when it is not set. *)
Definition Getenv (env : gmap string string) (key : string) : string :=
  default "" (env !! key).

Section setFromEnv.
Context {S : Type} (into : Value S) (env : gmap string string).

(** The loop of [setFromEnv] over the pieces [revs] of the name list. *)
Fixpoint setFromEnv_range (isMulti : bool) (mv : option (multiValued S))
    (revs : list string) : M S () :=
  match revs with
  | [] => mret ()
  | rev :: revs' =>
      let ev := strings.TrimSpace rev in
      if decide (String.length ev = 0%nat) then setFromEnv_range isMulti mv revs'
      else
        let v := Getenv env ev in
        if decide (String.length v = 0%nat) then setFromEnv_range isMulti mv revs'
        else if negb isMulti then
          err ← Set' into v;
          match err with
          | None => mret ()
          | Some _ => setFromEnv_range isMulti mv revs'
          end
        else
          let vs := strings.Split v "," in
          match mv with
          | None => λ _, Panic nilDeref
          | Some m =>
              err ← SetMulti m vs;
              match err with
              | None => mret ()
              | Some _ => setFromEnv_range isMulti mv revs'
              end
          end
  end.

Definition setFromEnv (envVars : string) : M S () := λ s,
  let mv := as_multiValued into in
  let isMulti :=
    match mv with
    | Some m => IsMultiValued m s
    | None => false
    end in
  if decide (0 < String.length envVars)%nat
  then setFromEnv_range isMulti mv (strings.Split envVars " ") s
  else Done () s.

End setFromEnv.

(** ** The display methods of the integer kinds *)

(** [fmt.Sprintf("%v", i)] for an [int]. *)
Definition Sprintf_v_int (i : Z) : string := strconv.FormatInt i 10.

Definition intParam_String : M (state Z) string :=
  i ← load; mret (Sprintf_v_int i).

Definition IntArg_String : M (state Z) string :=
  i ← load; mret (Sprintf_v_int i).

(** The loop of [intsParam.String] over the elements, [idx] being the
    index of the first of them and [res] the text so far. *)
Fixpoint intsParam_String_range (idx : nat) (xs : list Z) (res : string) : string :=
  match xs with
  | [] => res
  | s :: xs' =>
      let res := if decide (0 < idx)%nat then res +:+ ", " else res in
      let res := res +:+ Sprintf_v_int s in
      intsParam_String_range (S idx) xs' res
  end.

Definition intsParam_String : M (state (list Z)) string :=
  xs ← load;
  let res := "[" in
  let res := intsParam_String_range 0 xs res in
  mret (res +:+ "]").

Fixpoint IntsArg_String_range (idx : nat) (xs : list Z) (res : string) : string :=
  match xs with
  | [] => res
  | s :: xs' =>
      let res := if decide (0 < idx)%nat then res +:+ ", " else res in
      let res := res +:+ Sprintf_v_int s in
      IntsArg_String_range (S idx) xs' res
  end.

Definition IntsArg_String : M (state (list Z)) string :=
  xs ← load;
  let res := "[" in
  let res := IntsArg_String_range 0 xs res in
  mret (res +:+ "]").

(** ** Registration of options and arguments *)

(** A [*VarOpt] has the methods [Set], [IsMultiValued] and [SetMulti], so
    it is itself a [flag.Value] that satisfies [multiValued]. *)
Definition VarOpt_asValue {S} (vo : VarOpt S) : Value S :=
  MkValue (VarOpt_Set vo)
    (Some (MultiValued (VarOpt_IsMultiValued vo) (VarOpt_SetMulti vo))).

Definition VarArg_asValue {S} (va : VarArg S) : Value S :=
  MkValue (VarArg_Set va)
    (Some (MultiValued (VarArg_IsMultiValued va) (VarArg_SetMulti va))).

(** The struct [opt], its values living in a state [S]. *)
Record opt (S : Type) := Opt {
  opt_name : string;
  opt_desc : string;
  opt_envVar : string;
  opt_names : list string;
  opt_hideValue : bool;
  opt_value : Value S
}.
Arguments Opt {S} _ _ _ _ _ _.
Arguments opt_name {S} _.
Arguments opt_desc {S} _.
Arguments opt_envVar {S} _.
Arguments opt_names {S} _.
Arguments opt_hideValue {S} _.
Arguments opt_value {S} _.

(** The struct [arg]; its field [helpFormatter], a function that nothing
    here reads or writes, is left out. *)
Record arg (S : Type) := Arg {
  arg_name : string;
  arg_desc : string;
  arg_envVar : string;
  arg_hideValue : bool;
  arg_value : Value S
}.
Arguments Arg {S} _ _ _ _ _.
Arguments arg_name {S} _.
Arguments arg_desc {S} _.
Arguments arg_envVar {S} _.
Arguments arg_hideValue {S} _.
Arguments arg_value {S} _.

(** The fields of [Cmd] that [mkOpt] and [mkArg] use: the slices of
    pointers to the registered options and arguments and the maps from
    names to these pointers.  (The declaration of [Cmd] is not in these
    files; the maps are taken to be made, as a write to a nil map
    panics.) *)
Record Cmd := MkCmd {
  options : list loc;
  optionsIdx : gmap string loc;
  args : list loc;
  argsIdx : gmap string loc
}.

(** What [mkOpt] and [mkArg] work on: the command, the [opt] and [arg]
    variables that its pointers point to, and the state of the values. *)
Record world (S : Type) := World {
  cmd : Cmd;
  optHeap : gmap positive (opt S);
  argHeap : gmap positive (arg S);
  values : S
}.
Arguments World {S} _ _ _ _.
Arguments cmd {S} _.
Arguments optHeap {S} _.
Arguments argHeap {S} _.
Arguments values {S} _.

Section registration.
Context {S : Type} (env : gmap string string).

(** [mkOpt]: the parameter [opt] is a local copy; [&opt] is a variable of
    its own, which the slice and every entry of the map point to. *)
Definition mkOpt (o : opt S) : M (world S) () := λ w,
  match setFromEnv (opt_value o) env (opt_envVar o) (values w) with
  | Panic msg => Panic msg
  | Done _ s =>
      let o := Opt (opt_name o) (opt_desc o) (opt_envVar o)
                 (mkOptStrs (opt_name o)) (opt_hideValue o) (opt_value o) in
      let l := fresh (dom (optHeap w)) in
      let c := cmd w in
      let c := MkCmd (options c ++ [l]) (optionsIdx c) (args c) (argsIdx c) in
      let idx := foldl (λ idx name, <[name := l]> idx) (optionsIdx c) (opt_names o) in
      let c := MkCmd (options c) idx (args c) (argsIdx c) in
      Done () (World c (<[l := o]> (optHeap w)) (argHeap w) s)
  end.

Definition mkArg (a : arg S) : M (world S) () := λ w,
  match setFromEnv (arg_value a) env (arg_envVar a) (values w) with
  | Panic msg => Panic msg
  | Done _ s =>
      let l := fresh (dom (argHeap w)) in
      let c := cmd w in
      let c := MkCmd (options c) (optionsIdx c) (args c ++ [l]) (argsIdx c) in
      let c := MkCmd (options c) (optionsIdx c) (args c) (<[arg_name a := l]> (argsIdx c)) in
      Done () (World c (optHeap w) (<[l := a]> (argHeap w)) s)
  end.

(** [Cmd.VarOpt] and [Cmd.VarArg]: the fields that are not given are the
    zero values of their types. *)
Definition Cmd_VarOpt (name : string) (value : Value S) (desc : string)
  : M (world S) () :=
  mkOpt (Opt name desc "" [] false value).

Definition Cmd_VarArg (name : string) (value : Value S) (desc : string)
  : M (world S) () :=
  mkArg (Arg name desc "" false value).

End registration.

(** ** Notions used to state the properties *)

(** The candidate names of a name list, as [setFromEnv] obtains them: the
    pieces between single spaces, trimmed, the empty ones left out. *)
Definition envNames (envVars : string) : list string :=
  filter (λ ev, ev ≠ "") (strings.TrimSpace <$> strings.Split envVars " ").

(** A split at every white space rune: a rune of the table is cut where
    its encoding begins, any other byte goes to the current piece.  Every
    step takes at least one byte, so the length of the string, and one
    more for the end, is enough fuel. *)
Fixpoint splitSpace (fuel : nat) (s : string) : list string :=
  match fuel with
  | O => [s]
  | S fuel' =>
      match strings.cutRune strings.spaceRunes s with
      | Some rest => EmptyString :: splitSpace fuel' rest
      | None =>
          match s with
          | EmptyString => [EmptyString]
          | String c s' =>
              match splitSpace fuel' s' with
              | piece :: pieces => String c piece :: pieces
              | [] => [String c EmptyString]
              end
          end
      end
  end.

Definition SplitSpace (s : string) : list string :=
  splitSpace (Datatypes.S (String.length s)) s.

(** The candidate names as the specification words them: the list split on
    white space, each piece trimmed, the empty ones left out. *)
Definition envNames_spec (envVars : string) : list string :=
  filter (λ ev, ev ≠ "") (strings.TrimSpace <$> SplitSpace envVars).

(** The strings in which the space is the only white space rune: no
    other rune of the table begins anywhere in them. *)
Fixpoint spaceOnly (s : string) : bool :=
  match s with
  | EmptyString => true
  | String c s' =>
      (if decide (c = " "%char) then true
       else match strings.cutRune strings.spaceRunes s with
            | Some _ => false
            | None => true
            end) && spaceOnly s'
  end.

(** A run of [n] spaces. *)
Fixpoint spaces (n : nat) : string :=
  match n with
  | O => EmptyString
  | S n' => String " " (spaces n')
  end.

(** The call that [setFromEnv], started in state [s0], makes for the value
    [v] of a variable: [SetMulti] on the pieces between commas when the
    parameter is multi-valued, [Set] otherwise. *)
Definition envCall {S} (into : Value S) (s0 : S) (v : string) : M S (option error) :=
  match as_multiValued into with
  | Some m =>
      if IsMultiValued m s0 then SetMulti m (strings.Split v ",") else Set' into v
  | None => Set' into v
  end.

(** A call that returns an error leaves the state as it found it. *)
Definition failure_atomic {S} (call : M S (option error)) : Prop :=
  ∀ s e s', call s = Done (Some e) s' → s' = s.

(** The contract of a parameter: [Set] and [SetMulti] fail without
    mutating. *)
Record lawful {S} (into : Value S) : Prop := {
  Set_atomic : ∀ v, failure_atomic (Set' into v);
  SetMulti_atomic : ∀ m vs,
    as_multiValued into = Some m → failure_atomic (SetMulti m vs)
}.

(** A candidate name that [setFromEnv] passes over in state [s]: the
    variable is unset or empty, or the call with its value fails. *)
Definition passed_over {S} (into : Value S) (env : gmap string string) (s : S)
    (ev : string) : Prop :=
  Getenv env ev = "" ∨ ∃ e, envCall into s (Getenv env ev) s = Done (Some e) s.

(** The strings of the grammar of decimal integers: an optional sign and
    one or more decimal digits, with a value that fits 64 bits. *)
Definition isDigit (c : ascii) : bool :=
  (48 <=? strconv.code c) && (strconv.code c <=? 57).

Fixpoint decimal (acc : Z) (ds : string) : option Z :=
  match ds with
  | EmptyString => Some acc
  | String c ds' =>
      if isDigit c then decimal (10 * acc + (strconv.code c - 48)) ds' else None
  end.

Definition base10 (s : string) : option Z :=
  let '(neg, ds) :=
    match s with
    | String "+" ds => (false, ds)
    | String "-" ds => (true, ds)
    | _ => (false, s)
    end in
  if decide (ds = "") then None
  else
    match decimal 0 ds with
    | Some v =>
        let z := if neg : bool then - v else v in
        if decide (- 2 ^ 63 ≤ z < 2 ^ 63) then Some z else None
    | None => None
    end.

(** The boolean literals and their values. *)
Definition boolLiterals : list (string * bool) :=
  [ ("1", true); ("t", true); ("T", true); ("true", true); ("TRUE", true);
    ("True", true); ("0", false); ("f", false); ("F", false);
    ("false", false); ("FALSE", false); ("False", false) ].

Definition boolLiteral (s : string) : option bool :=
  (λ found : nat * (string * bool), found.2.2) <$> list_find (λ lit, lit.1 = s) boolLiterals.

(** The elements of a batch that are left after trimming. *)
Definition trimmed (vs : list string) : list string :=
  filter (λ v, v ≠ "") (strings.TrimSpace <$> vs).

(** Strings made of white space runes only, and of commas and white space
    runes only. *)
Inductive blank : string → Prop :=
| blank_nil : blank ""
| blank_rune r s : r ∈ strings.spaceRunes → blank s → blank (r +:+ s).

Inductive commas_and_spaces : string → Prop :=
| cas_nil : commas_and_spaces ""
| cas_comma s : commas_and_spaces s → commas_and_spaces (String "," s)
| cas_rune r s :
    r ∈ strings.spaceRunes → commas_and_spaces s → commas_and_spaces (r +:+ s).

(** A sequence of [Set] calls, one after the other, whether they fail or
    not; a panic ends it. *)
Fixpoint SetAll {S} (set : string → M S (option error)) (raws : list string)
  : M S () :=
  match raws with
  | [] => mret ()
  | raw :: raws' => _ ← set raw; SetAll set raws'
  end.

(** The scan of [setFromEnv] seen on the candidate names: the first name
    whose variable has a value and whose call does not fail ends it. *)
Fixpoint tryNames {S} (into : Value S) (env : gmap string string) (s0 : S)
    (names : list string) : M S () :=
  match names with
  | [] => mret ()
  | ev :: names' =>
      let v := Getenv env ev in
      if decide (v = "") then tryNames into env s0 names'
      else
        err ← envCall into s0 v;
        match err with
        | None => mret ()
        | Some _ => tryNames into env s0 names'
        end
  end.

Definition tab : string := String "009" "".

(** A heap with one repeated string variable, for examples. *)
Definition heap_x : gmap positive (list string) := {[1%positive := ["x"]]}.

(** The bytes of a string, [[]byte(s)]. *)
Fixpoint bytes (s : string) : list ascii :=
  match s with
  | EmptyString => []
  | String c s' => c :: bytes s'
  end.

(** A declaration of an option or of an argument, and a sequence of
    declarations made one after the other on a command. *)
Inductive decl (S : Type) :=
| DeclOpt (o : opt S)
| DeclArg (a : arg S).
Arguments DeclOpt {S} _.
Arguments DeclArg {S} _.

Fixpoint declare {S} (env : gmap string string) (ds : list (decl S))
  : M (world S) () :=
  match ds with
  | [] => mret ()
  | DeclOpt o :: ds' => _ ← mkOpt env o; declare env ds'
  | DeclArg a :: ds' => _ ← mkArg env a; declare env ds'
  end.

(** A command on which nothing is declared yet. *)
Definition newWorld {S} (s : S) : world S := World (MkCmd [] ∅ [] ∅) ∅ ∅ s.

(** [strings.Join], and the text it puts after the first element. *)
Definition joinTail (sep : string) (elems : list string) : string :=
  foldr (λ elem rest, sep +:+ elem +:+ rest) "" elems.

Definition Join (elems : list string) (sep : string) : string :=
  match elems with
  | [] => ""
  | elem :: elems' => elem +:+ joinTail sep elems'
  end.

(** The bytes that the decimal rendering of an integer is made of. *)
Definition plain (c : ascii) : Prop := c ∈ bytes "-0123456789".

(** The names of the options and of the arguments among declarations, in
    the order of the declarations. *)
Definition declaredOpts {S} (ds : list (decl S)) : list string :=
  omap (λ d, match d with DeclOpt o => Some (opt_name o) | DeclArg _ => None end) ds.

Definition declaredArgs {S} (ds : list (decl S)) : list string :=
  omap (λ d, match d with DeclArg a => Some (arg_name a) | DeclOpt _ => None end) ds.

(** The names of the records that the pointers of a slice point to. *)
Definition optNames {S} (w : world S) : list (option string) :=
  (λ l, opt_name <$> optHeap w !! l) <$> options (cmd w).

Definition argNames {S} (w : world S) : list (option string) :=
  (λ l, arg_name <$> argHeap w !! l) <$> args (cmd w).

(** The consistency of the slices and the maps of a command: the pointers
    of a slice are distinct and point to records; an entry of the map of
    the options points to an option of the slice whose flags, derived from
    its name, have the key among them; an entry of the map of the
    arguments points to an argument of the slice that has the key as its
    name. *)
Record consistent {S} (w : world S) : Prop := {
  options_NoDup : NoDup (options (cmd w));
  options_alloc : ∀ l, l ∈ options (cmd w) → is_Some (optHeap w !! l);
  optionsIdx_ok : ∀ k l, optionsIdx (cmd w) !! k = Some l →
    l ∈ options (cmd w) ∧
    ∃ o, optHeap w !! l = Some o ∧ k ∈ opt_names o ∧
         opt_names o = mkOptStrs (opt_name o);
  args_NoDup : NoDup (args (cmd w));
  args_alloc : ∀ l, l ∈ args (cmd w) → is_Some (argHeap w !! l);
  argsIdx_ok : ∀ k l, argsIdx (cmd w) !! k = Some l →
    l ∈ args (cmd w) ∧ ∃ a, argHeap w !! l = Some a ∧ arg_name a = k
}.

(** * Properties *)

#[local] Arguments strings.TrimSpace : simpl never.
#[local] Arguments Getenv : simpl never.

(** ** Splitting and trimming *)

Lemma Split_nonempty s sep : strings.Split s sep ≠ [].
Proof. destruct s as [|c s]; simpl; [done|]. case_decide; [done|]. by destruct (strings.Split s sep). Qed.

Lemma Split_no_sep r sep : sep ∉ bytes r → strings.Split r sep = [r].
Proof.
  induction r as [|c r IH]; [done|]. cbn [bytes strings.Split].
  intros [Hc Hr]%not_elem_of_cons. rewrite decide_False by done. by rewrite IH.
Qed.

Lemma Split_app_sep a b sep :
  strings.Split (a +:+ String sep b) sep = strings.Split a sep ++ strings.Split b sep.
Proof.
  induction a as [|c a IH].
  - change ("" +:+ String sep b) with (String sep b). cbn [strings.Split].
    by rewrite decide_True by done.
  - change (String c a +:+ String sep b) with (String c (a +:+ String sep b)).
    cbn [strings.Split]. rewrite IH. case_decide; [done|].
    destruct (strings.Split a sep) as [|piece pieces] eqn:E; [|done].
    by destruct (Split_nonempty a sep).
Qed.

Lemma Split_cons_ne c s sep :
  c ≠ sep →
  ∃ piece pieces, strings.Split s sep = piece :: pieces ∧
    strings.Split (String c s) sep = String c piece :: pieces.
Proof.
  intros Hne. destruct (strings.Split s sep) as [|piece pieces] eqn:E.
  - by destruct (Split_nonempty s sep).
  - exists piece, pieces. split; [done|]. simpl. rewrite decide_False by done. by rewrite E.
Qed.

(** ** Option names *)

Lemma mkOptStrs_range_app (pre post : list string) :
  mkOptStrs_range (length post) (length pre) (pre ++ post)
  = pre ++ ((λ name, optPrefix name +:+ name) <$> post).
Proof.
  revert pre. induction post as [|name post IH]; intros pre; simpl; [done|].
  rewrite list_lookup_middle by done.
  rewrite insert_app_r_alt by lia. rewrite Nat.sub_diag. simpl.
  rewrite (cons_middle _ pre post), app_assoc.
  replace (Datatypes.S (length pre)) with (length (pre ++ [optPrefix name +:+ name]))
    by (rewrite length_app; simpl; lia).
  rewrite IH. by rewrite <- app_assoc.
Qed.

Lemma mkOptStrs_map optName :
  mkOptStrs optName = (λ name, optPrefix name +:+ name) <$> strings.Split optName " ".
Proof. unfold mkOptStrs. apply (mkOptStrs_range_app []). Qed.







(** The length that [mkOptStrs] compares with one is the number of bytes
    of the token: a token that is one letter of two bytes, here the
    letter of code point 233, gets two dashes. *)
Example mkOptStrs_two_byte_letter :
  characters (strings.EncodeRune 233) = 1%nat ∧
  String.length (strings.EncodeRune 233) = 2%nat ∧
  mkOptStrs (strings.EncodeRune 233) = ["--" +:+ strings.EncodeRune 233].
Proof. by vm_compute. Qed.

(** ** Parsing *)

Lemma ParseBool_boolLiteral s :
  strconv.ParseBool s =
  match boolLiteral s with
  | Some b => (b, None)
  | None => (false, Some (strconv.syntaxError "ParseBool" s))
  end.
Proof.
  unfold strconv.ParseBool. repeat case_decide; [| |].
  1,2: repeat (match goal with
               | H : _ ∈ _ :: _ |- _ => apply elem_of_cons in H as [->|H]
               | H : _ ∈ [] |- _ => by apply elem_of_nil in H
               end); by vm_compute.
  unfold boolLiteral, boolLiterals. simpl.
  repeat (rewrite decide_False; [|intros <-; set_solver]). done.
Qed.

Lemma decimal_ge ds : ∀ acc v, 0 ≤ acc → decimal acc ds = Some v → acc ≤ v.
Proof.
  induction ds as [|c ds IH]; intros acc v Hacc; simpl.
  - intros [= <-]. lia.
  - destruct (isDigit c) eqn:Hc; [|done]. intros Hv.
    unfold isDigit in Hc. apply IH in Hv; lia.
Qed.

Lemma digit_isDigit c :
  isDigit c = true → strconv.digit (strconv.code c) = Some (strconv.code c - 48).
Proof. unfold isDigit, strconv.digit. by intros ->. Qed.

Lemma digit_not_isDigit c :
  isDigit c = false →
  strconv.digit (strconv.code c) = None ∨
  ∃ d, strconv.digit (strconv.code c) = Some d ∧ 10 ≤ d.
Proof.
  unfold isDigit, strconv.digit. intros ->.
  destruct ((97 <=? _) && _) eqn:E; [|by left].
  right. eexists. split; [done|]. lia.
Qed.

Lemma ParseUint_loop_spec cs : ∀ n,
  0 ≤ n ≤ strconv.maxUint64 →
  match decimal n cs with
  | Some v =>
      strconv.ParseUint_loop 10 (strconv.maxUint64 / 10 + 1) (2 ^ 64 - 1) cs n
      = if decide (v ≤ strconv.maxUint64) then (v, None)
        else (strconv.maxUint64, Some strconv.ErrRange)
  | None =>
      strconv.ParseUint_loop 10 (strconv.maxUint64 / 10 + 1) (2 ^ 64 - 1) cs n
      = (0, Some strconv.ErrSyntax) ∨
      strconv.ParseUint_loop 10 (strconv.maxUint64 / 10 + 1) (2 ^ 64 - 1) cs n
      = (strconv.maxUint64, Some strconv.ErrRange)
  end.
Proof.
  change (strconv.maxUint64 / 10 + 1) with 1844674407370955162.
  change (2 ^ 64 - 1) with 18446744073709551615.
  unfold strconv.maxUint64. change (2 ^ 64 - 1) with 18446744073709551615.
  induction cs as [|c cs IH]; intros n Hn; simpl.
  - by rewrite decide_True by lia.
  - destruct (isDigit c) eqn:Hc.
    + rewrite (digit_isDigit c Hc).
      assert (0 ≤ strconv.code c - 48 ≤ 9) as Hd by (unfold isDigit in Hc; lia).
      rewrite (proj2 (Z.leb_gt _ _)) by lia.
      destruct (Z.leb_spec 1844674407370955162 n) as [Hcut|Hcut].
      * destruct (decimal _ cs) as [v|] eqn:Hv; [|by right].
        apply decimal_ge in Hv; [|lia]. by rewrite decide_False by lia.
      * unfold strconv.uint64. change (2 ^ 64) with 18446744073709551616.
        rewrite (Z.mod_small (n * 10)) by lia.
        destruct (decide (n * 10 + (strconv.code c - 48) ≤ 18446744073709551615)) as [Hfit|Hover].
        -- rewrite Z.mod_small by lia.
           rewrite (proj2 (Z.ltb_ge _ _)) by lia.
           rewrite (proj2 (Z.ltb_ge _ _)) by lia. simpl.
           replace (n * 10) with (10 * n) by lia.
           apply IH. lia.
        -- replace ((n * 10 + (strconv.code c - 48)) `mod` 18446744073709551616)
             with (n * 10 + (strconv.code c - 48) - 18446744073709551616).
           2:{ apply Z.mod_unique_pos with 1; lia. }
           rewrite (proj2 (Z.ltb_lt _ _)) by lia. simpl.
           destruct (decimal _ cs) as [v|] eqn:Hv; [|by right].
           apply decimal_ge in Hv; [|lia]. by rewrite decide_False by lia.
    + destruct (digit_not_isDigit c Hc) as [->|(d & -> & Hd)]; [by left|].
      rewrite (proj2 (Z.leb_le _ _)) by lia. by left.
Qed.

Lemma int64_small z : - 2 ^ 63 ≤ z < 2 ^ 63 → strconv.int64 z = z.
Proof. intros Hz. unfold strconv.int64. rewrite Z.mod_small; lia. Qed.

Lemma int_small z : - 2 ^ 63 ≤ z < 2 ^ 63 → int z = z.
Proof. intros Hz. unfold int. rewrite Z.mod_small; lia. Qed.

(** [strconv.ParseInt] in base 10 and 64 bits accepts exactly the strings
    of the grammar [base10], with their value. *)
Lemma ParseInt_base10 s :
  match base10 s with
  | Some z => strconv.ParseInt s 10 64 = (z, None) ∧ - 2 ^ 63 ≤ z < 2 ^ 63
  | None => ∃ x e, strconv.ParseInt s 10 64 = (x, Some e)
  end.
Proof.
  unfold base10, strconv.ParseInt.
  destruct (decide (s = "")) as [->|Hs]; [simpl; by eauto|].
  destruct (match s with
            | String "+" ds => (false, ds)
            | String "-" ds => (true, ds)
            | _ => (false, s)
            end) as [neg ds].
  unfold strconv.ParseUint.
  destruct (decide (ds = "")) as [->|Hds]; [simpl; by eauto|].
  pose proof (ParseUint_loop_spec ds 0) as Hloop.
  change (2 ^ 64 - 1) with strconv.maxUint64 in Hloop |- *.
  assert (strconv.uint64 (2 ^ (64 - 1)) = 2 ^ 63) as -> by done.
  destruct (decimal 0 ds) as [v|] eqn:Hv.
  - rewrite Hloop by (unfold strconv.maxUint64; lia).
    apply decimal_ge in Hv; [|lia]. unfold strconv.maxUint64 in *.
    destruct (decide (v ≤ 2 ^ 64 - 1)) as [Hfit|Hover]; simpl.
    + destruct neg; simpl.
      * destruct (Z.ltb_spec (2 ^ 63) v).
        { rewrite decide_False by lia. by eauto. }
        rewrite decide_True by lia. split; [|lia]. f_equal.
        destruct (decide (v = 2 ^ 63)) as [->|Hne]; [done|].
        rewrite (int64_small v) by lia. apply int64_small. lia.
      * destruct (Z.leb_spec (2 ^ 63) v).
        { rewrite decide_False by lia. by eauto. }
        rewrite decide_True by lia. split; [|lia]. f_equal. apply int64_small. lia.
    + rewrite !decide_False by (destruct neg; lia).
      destruct neg; simpl; by eauto.
  - destruct Hloop as [->| ->]; [unfold strconv.maxUint64; lia|..]; simpl; [by eauto|].
    destruct neg; simpl; by eauto.
Qed.

(** ** The heap *)

Section heap_lemmas.
Context {A : Type}.
Implicit Types (p : param A) (h : gmap positive A).

Lemma load_Done p h v : h !! into p = Some v → load (p, h) = Done v (p, h).
Proof. intros Hv. unfold load. by rewrite Hv. Qed.

Lemma store_Done p h old v :
  h !! into p = Some old → store v (p, h) = Done () (p, <[into p := v]> h).
Proof. intros Hv. unfold store. by rewrite Hv. Qed.

Lemma fresh_None h : h !! fresh (dom h) = None.
Proof. apply not_elem_of_dom, is_fresh. Qed.

Lemma fresh_ne h l v : h !! l = Some v → fresh (dom h) ≠ l.
Proof. intros Hl Heq. rewrite <- Heq, fresh_None in Hl. done. Qed.

End heap_lemmas.

(** ** Scalar parameters *)

(** C6: a boolean literal is accepted by [Set], and [String] then gives the
    canonical text of its value; any other string makes [Set] fail and
    leaves the stored boolean as it was. *)
Theorem C6_boolParam_Set (s : string) (p : boolParam) (h : gmap positive bool)
    (old : bool) :
  h !! into p = Some old →
  match boolLiteral s with
  | Some b =>
      boolParam_Set s (p, h) = Done None (p, <[into p := b]> h) ∧
      boolParam_String (p, <[into p := b]> h)
      = Done (if b then "true" else "false") (p, <[into p := b]> h)
  | None =>
      (∃ e, boolParam_Set s (p, h) = Done (Some e) (p, h)) ∧
      boolParam_String (p, h) = Done (if old then "true" else "false") (p, h)
  end.
Proof.
  intros Hold. unfold boolParam_Set, boolParam_String.
  rewrite ParseBool_boolLiteral. destruct (boolLiteral s) as [b|].
  - unfold mbind, M_bind, mret, M_ret. rewrite (store_Done _ _ old) by done.
    split; [done|]. by rewrite (load_Done _ _ b) by apply lookup_insert_eq.
  - unfold mbind, M_bind, mret, M_ret. split; [by eauto|].
    by rewrite (load_Done _ _ old).
Qed.

Lemma C6_boolParam_Set_witness :
  ({[1%positive := false]} : gmap positive bool) !! into (Param 1 : boolParam) = Some false ∧
  boolParam_Set "T" (Param 1, {[1%positive := false]})
  = Done None (Param 1, <[1%positive := true]> {[1%positive := false]}) ∧
  boolParam_String (Param 1, <[1%positive := true]> {[1%positive := false]})
  = Done "true" (Param 1, <[1%positive := true]> {[1%positive := false]}).
Proof.
  split; [reflexivity|].
  exact (C6_boolParam_Set "T" (Param 1) {[1%positive := false]} false eq_refl).
Defined.

(** C5: a string of the grammar of decimal integers (optional sign, one or
    more digits, leading zeros allowed, value within 64 bits) is accepted
    by [Set], which stores its value; any other string makes [Set] fail and
    leaves the stored integer as it was.  The same holds for [IntArg]. *)
Theorem C5_intParam_Set (s : string) (p : intParam) (h : gmap positive Z)
    (old : Z) :
  h !! into p = Some old →
  match base10 s with
  | Some z =>
      intParam_Set s (p, h) = Done None (p, <[into p := z]> h) ∧
      IntArg_Set s (p, h) = Done None (p, <[into p := z]> h)
  | None =>
      ∃ e, intParam_Set s (p, h) = Done (Some e) (p, h) ∧
           IntArg_Set s (p, h) = Done (Some e) (p, h)
  end.
Proof.
  intros Hold. unfold intParam_Set, IntArg_Set.
  pose proof (ParseInt_base10 s) as Hparse.
  destruct (base10 s) as [z|].
  - destruct Hparse as [-> Hz]. rewrite int_small by done.
    unfold mbind, M_bind, mret, M_ret. by rewrite (store_Done _ _ old).
  - destruct Hparse as (x & e & ->). by eauto.
Qed.

Lemma C5_intParam_Set_witness :
  ({[1%positive := 7]} : gmap positive Z) !! into (Param 1 : intParam) = Some 7 ∧
  intParam_Set "01" (Param 1, {[1%positive := 7]})
  = Done None (Param 1, <[1%positive := 1]> {[1%positive := 7]}) ∧
  IntArg_Set "01" (Param 1, {[1%positive := 7]})
  = Done None (Param 1, <[1%positive := 1]> {[1%positive := 7]}).
Proof.
  split; [reflexivity|].
  exact (C5_intParam_Set "01" (Param 1) {[1%positive := 7]} 7 eq_refl).
Defined.

(** ** Repeated parameters *)

Lemma IntsArg_SetMulti_range_eq vs : ∀ newValue,
  IntsArg_SetMulti_range vs newValue = intsParam_SetMulti_range vs newValue.
Proof.
  induction vs as [|v vs IH]; intros newValue; simpl; [done|].
  case_decide; [done|]. destruct (strconv.ParseInt _ _ _) as [i [e|]]; done.
Qed.

Lemma StringsArg_SetMulti_range_eq vs : ∀ idx newValue,
  StringsArg_SetMulti_range idx vs newValue = stringsParam_SetMulti_range idx vs newValue.
Proof. induction vs as [|v vs IH]; intros idx newValue; simpl; done. Qed.

Lemma trimmed_cons v vs :
  trimmed (v :: vs) =
  if decide (strings.TrimSpace v = "") then trimmed vs
  else strings.TrimSpace v :: trimmed vs.
Proof.
  unfold trimmed. rewrite fmap_cons, filter_cons.
  by repeat case_decide.
Qed.

Lemma intsParam_SetMulti_range_spec vs : ∀ newValue,
  match mapM base10 (trimmed vs) with
  | Some ints => intsParam_SetMulti_range vs newValue = inr (newValue ++ ints)
  | None => ∃ e, intsParam_SetMulti_range vs newValue = inl e
  end.
Proof.
  induction vs as [|v vs IH]; intros newValue.
  - simpl. by rewrite app_nil_r.
  - rewrite trimmed_cons. simpl. case_decide as Hv; [apply IH|].
    simpl. pose proof (ParseInt_base10 (strings.TrimSpace v)) as Hparse.
    destruct (base10 (strings.TrimSpace v)) as [z|]; simpl.
    + destruct Hparse as [-> Hz]. rewrite int_small by done.
      specialize (IH (newValue ++ [z])).
      destruct (mapM base10 (trimmed vs)) as [ints|]; simpl; [|done].
      by rewrite IH, <- app_assoc.
    + destruct Hparse as (x & e & ->). by eauto.
Qed.

(** C1: [SetMulti] on a repeated integer parameter trims every element,
    leaves out those that are empty then, and parses the others as decimal
    integers.  When one of them does not parse, it returns an error and
    the receiver and the heap are what they were; when all parse, it
    succeeds and the parameter's sequence is the parsed integers in the
    order of the input.  The same holds for [IntsArg]. *)
Theorem C1_intsParam_SetMulti (vs : list string) (p : intsParam)
    (h : gmap positive (list Z)) :
  match mapM base10 (trimmed vs) with
  | Some ints =>
      ∃ p' h',
        intsParam_SetMulti vs (p, h) = Done None (p', h') ∧
        IntsArg_SetMulti vs (p, h) = Done None (p', h') ∧
        h' !! into p' = Some ints
  | None =>
      ∃ e,
        intsParam_SetMulti vs (p, h) = Done (Some e) (p, h) ∧
        IntsArg_SetMulti vs (p, h) = Done (Some e) (p, h)
  end.
Proof.
  unfold intsParam_SetMulti, IntsArg_SetMulti.
  replace (IntsArg_SetMulti_range vs []) with (intsParam_SetMulti_range vs [])
    by (symmetry; apply IntsArg_SetMulti_range_eq).
  pose proof (intsParam_SetMulti_range_spec vs []) as Hloop.
  destruct (mapM base10 (trimmed vs)) as [ints|].
  - rewrite Hloop. simpl.
    exists (Param (fresh (dom h))), (<[fresh (dom h) := ints]> h).
    split_and!; [done..|]. apply lookup_insert_eq.
  - destruct Hloop as [e ->]. by exists e.
Qed.

Lemma stringsParam_SetMulti_range_app (pre vs : list string) :
  stringsParam_SetMulti_range (length pre) vs (pre ++ replicate (length vs) "")
  = pre ++ (strings.TrimSpace <$> vs).
Proof.
  revert pre. induction vs as [|v vs IH]; intros pre; simpl; [done|].
  rewrite insert_app_r_alt by lia. rewrite Nat.sub_diag. simpl.
  rewrite (cons_middle _ pre), app_assoc.
  replace (Datatypes.S (length pre)) with (length (pre ++ [strings.TrimSpace v]))
    by (rewrite length_app; simpl; lia).
  rewrite IH. by rewrite <- app_assoc.
Qed.

Lemma stringsParam_SetMulti_range_all (vs : list string) :
  stringsParam_SetMulti_range 0 vs (replicate (length vs) "")
  = strings.TrimSpace <$> vs.
Proof. apply (stringsParam_SetMulti_range_app [] vs). Qed.

Lemma stringsParam_SetMulti_Done vs (p : stringsParam) h :
  stringsParam_SetMulti vs (p, h)
  = Done None (Param (fresh (dom h)), <[fresh (dom h) := strings.TrimSpace <$> vs]> h).
Proof.
  unfold stringsParam_SetMulti.
  by rewrite stringsParam_SetMulti_range_all.
Qed.

Lemma StringsArg_SetMulti_Done vs (p : stringsParam) h :
  StringsArg_SetMulti vs (p, h)
  = Done None (Param (fresh (dom h)), <[fresh (dom h) := strings.TrimSpace <$> vs]> h).
Proof.
  unfold StringsArg_SetMulti.
  replace (StringsArg_SetMulti_range 0 vs (replicate (length vs) ""))
    with (stringsParam_SetMulti_range 0 vs (replicate (length vs) ""))
    by (symmetry; apply StringsArg_SetMulti_range_eq).
  by rewrite stringsParam_SetMulti_range_all.
Qed.

Lemma stringsParam_Set_Done s (p : stringsParam) h old :
  h !! into p = Some old →
  stringsParam_Set s (p, h) = Done None (p, <[into p := old ++ [s]]> h).
Proof.
  intros Hold. unfold stringsParam_Set, mbind, M_bind, mret, M_ret.
  rewrite (load_Done _ _ old) by done. by rewrite (store_Done _ _ old).
Qed.

(** C2: on a repeated string parameter whose sequence is [old], [Set]
    never fails and makes the parameter's sequence [old] followed by the
    raw token; [SetMulti] never fails and makes the parameter's sequence
    the batch with every element trimmed, in the same order and with its
    empty strings.  The same holds for [StringsArg]. *)
Theorem C2_stringsParam (s : string) (vs : list string) (p : stringsParam)
    (h : gmap positive (list string)) (old : list string) :
  h !! into p = Some old →
  (∃ h',
    stringsParam_Set s (p, h) = Done None (p, h') ∧
    StringsArg_Set s (p, h) = Done None (p, h') ∧
    h' !! into p = Some (old ++ [s])) ∧
  ∃ p' h',
    stringsParam_SetMulti vs (p, h) = Done None (p', h') ∧
    StringsArg_SetMulti vs (p, h) = Done None (p', h') ∧
    h' !! into p' = Some (strings.TrimSpace <$> vs).
Proof.
  intros Hold. split.
  - eexists. split_and!; [by apply stringsParam_Set_Done..|]. apply lookup_insert_eq.
  - eexists _, _. rewrite stringsParam_SetMulti_Done, StringsArg_SetMulti_Done.
    split_and!; [done..|]. apply lookup_insert_eq.
Qed.

Lemma C2_stringsParam_witness :
  heap_x !! into (Param 1 : stringsParam) = Some ["x"] ∧
  ∃ h',
    stringsParam_Set " c " (Param 1, heap_x) = Done None (Param 1, h') ∧
    StringsArg_Set " c " (Param 1, heap_x) = Done None (Param 1, h') ∧
    h' !! 1%positive = Some ["x"; " c "].
Proof.
  split; [reflexivity|].
  exact (proj1 (C2_stringsParam " c " [] (Param 1) heap_x ["x"] eq_refl)).
Defined.

Lemma intsParam_Set_spec s (p : intsParam) h old :
  h !! into p = Some old →
  match base10 s with
  | Some z => intsParam_Set s (p, h) = Done None (p, <[into p := old ++ [z]]> h)
  | None => ∃ e, intsParam_Set s (p, h) = Done (Some e) (p, h)
  end.
Proof.
  intros Hold. unfold intsParam_Set.
  pose proof (ParseInt_base10 s) as Hparse.
  destruct (base10 s) as [z|].
  - destruct Hparse as [-> Hz]. rewrite int_small by done.
    unfold mbind, M_bind, mret, M_ret.
    rewrite (load_Done _ _ old) by done. by rewrite (store_Done _ _ old).
  - destruct Hparse as (x & e & ->). by eauto.
Qed.

Lemma SetAll_stringsParam raws : ∀ (p : stringsParam) h cur,
  h !! into p = Some cur →
  SetAll stringsParam_Set raws (p, h) = Done () (p, <[into p := cur ++ raws]> h).
Proof.
  induction raws as [|raw raws IH]; intros p h cur Hcur; simpl.
  - rewrite app_nil_r, insert_id by done. done.
  - unfold mbind, M_bind. rewrite (stringsParam_Set_Done _ _ _ cur) by done.
    rewrite (IH _ _ (cur ++ [raw])) by apply lookup_insert_eq.
    by rewrite insert_insert_eq, <- app_assoc.
Qed.

Lemma SetAll_intsParam raws : ∀ (p : intsParam) h cur,
  h !! into p = Some cur →
  SetAll intsParam_Set raws (p, h)
  = Done () (p, <[into p := cur ++ omap base10 raws]> h).
Proof.
  induction raws as [|raw raws IH]; intros p h cur Hcur; simpl.
  - rewrite app_nil_r, insert_id by done. done.
  - unfold mbind, M_bind.
    pose proof (intsParam_Set_spec raw p h cur Hcur) as Hset.
    destruct (base10 raw) as [z|].
    + rewrite Hset. rewrite (IH _ _ (cur ++ [z])) by apply lookup_insert_eq.
      by rewrite insert_insert_eq, <- app_assoc.
    + destruct Hset as [e ->]. by apply IH.
Qed.

(** C9: a successful [SetMulti] on a repeated string or integer parameter
    points [into] at a variable [l] that did not exist before and holds
    the batch; every variable that existed, the one [into] pointed to
    among them, keeps its contents, and the [Set] calls that follow append
    to [l] and leave those variables alone as well. *)
Theorem C9_SetMulti_redirects :
  (∀ (vs raws : list string) (p : stringsParam) h old,
     h !! into p = Some old →
     ∃ l, h !! l = None ∧ l ≠ into p ∧
       let batch := strings.TrimSpace <$> vs in
       stringsParam_SetMulti vs (p, h) = Done None (Param l, <[l := batch]> h) ∧
       <[l := batch]> h !! into p = Some old ∧
       SetAll stringsParam_Set raws (Param l, <[l := batch]> h)
       = Done () (Param l, <[l := batch ++ raws]> h) ∧
       ∀ l' v, h !! l' = Some v → <[l := batch ++ raws]> h !! l' = Some v) ∧
  (∀ (vs raws : list string) (p : intsParam) h old batch,
     h !! into p = Some old →
     mapM base10 (trimmed vs) = Some batch →
     ∃ l, h !! l = None ∧ l ≠ into p ∧
       intsParam_SetMulti vs (p, h) = Done None (Param l, <[l := batch]> h) ∧
       <[l := batch]> h !! into p = Some old ∧
       SetAll intsParam_Set raws (Param l, <[l := batch]> h)
       = Done () (Param l, <[l := batch ++ omap base10 raws]> h) ∧
       ∀ l' v, h !! l' = Some v →
         <[l := batch ++ omap base10 raws]> h !! l' = Some v).
Proof.
  split.
  - intros vs raws p h old Hold. exists (fresh (dom h)). cbv zeta.
    pose proof (fresh_None h) as Hfresh.
    pose proof (fresh_ne h _ _ Hold) as Hne.
    split_and!; [done..| | | |].
    + apply stringsParam_SetMulti_Done.
    + by rewrite lookup_insert_ne.
    + rewrite (SetAll_stringsParam raws _ _ (strings.TrimSpace <$> vs))
        by apply lookup_insert_eq.
      by rewrite insert_insert_eq.
    + intros l' v Hl'. rewrite lookup_insert_ne; [done|]. by eapply fresh_ne.
  - intros vs raws p h old batch Hold Hbatch. exists (fresh (dom h)).
    pose proof (fresh_None h) as Hfresh.
    pose proof (fresh_ne h _ _ Hold) as Hne.
    split_and!; [done..| | | |].
    + unfold intsParam_SetMulti.
      pose proof (intsParam_SetMulti_range_spec vs []) as Hloop.
      rewrite Hbatch in Hloop. by rewrite Hloop.
    + by rewrite lookup_insert_ne.
    + rewrite (SetAll_intsParam raws _ _ batch) by apply lookup_insert_eq.
      by rewrite insert_insert_eq.
    + intros l' v Hl'. rewrite lookup_insert_ne; [done|]. by eapply fresh_ne.
Qed.

Lemma C9_SetMulti_redirects_witness :
  heap_x !! into (Param 1 : stringsParam) = Some ["x"] ∧
  ∃ l, heap_x !! l = None ∧ l ≠ 1%positive ∧
    stringsParam_SetMulti ["a"; " b "] (Param 1, heap_x)
    = Done None (Param l, <[l := strings.TrimSpace <$> ["a"; " b "]]> heap_x) ∧
    <[l := strings.TrimSpace <$> ["a"; " b "]]> heap_x !! 1%positive = Some ["x"] ∧
    SetAll stringsParam_Set ["c"; "d"]
      (Param l, <[l := strings.TrimSpace <$> ["a"; " b "]]> heap_x)
    = Done () (Param l, <[l := (strings.TrimSpace <$> ["a"; " b "]) ++ ["c"; "d"]]> heap_x) ∧
    ∀ l' v, heap_x !! l' = Some v →
      <[l := (strings.TrimSpace <$> ["a"; " b "]) ++ ["c"; "d"]]> heap_x !! l' = Some v.
Proof.
  split; [reflexivity|].
  exact (proj1 C9_SetMulti_redirects ["a"; " b "] ["c"; "d"] (Param 1)
           heap_x ["x"] eq_refl).
Defined.

(** ** User-settable options and arguments *)

(** C7: [SetMulti] on a [VarOpt] or [VarArg] panics when the wrapped value
    does not have the methods of [multiValued] or has them and reports
    that it is not multi-valued: the outcome is the panic, not an error
    that is returned.  Otherwise the call is the [SetMulti] of the wrapped
    value. *)
Theorem C7_Var_SetMulti {S} (vo : VarOpt S) (va : VarArg S)
    (vs : list string) (s : S) :
  ((as_multiValued (VarOpt_Value vo) = None ∨
    ∃ mv, as_multiValued (VarOpt_Value vo) = Some mv ∧ IsMultiValued mv s = false) →
   VarOpt_SetMulti vo vs s = Panic "Bug") ∧
  (∀ mv, as_multiValued (VarOpt_Value vo) = Some mv → IsMultiValued mv s = true →
   VarOpt_SetMulti vo vs s = SetMulti mv vs s) ∧
  ((as_multiValued (VarArg_Value va) = None ∨
    ∃ mv, as_multiValued (VarArg_Value va) = Some mv ∧ IsMultiValued mv s = false) →
   VarArg_SetMulti va vs s = Panic "Bug") ∧
  (∀ mv, as_multiValued (VarArg_Value va) = Some mv → IsMultiValued mv s = true →
   VarArg_SetMulti va vs s = SetMulti mv vs s).
Proof.
  unfold VarOpt_SetMulti, VarArg_SetMulti. split_and!.
  - intros [->|(mv & -> & ->)]; done.
  - intros mv -> ->. done.
  - intros [->|(mv & -> & ->)]; done.
  - intros mv -> ->. done.
Qed.

Lemma C7_Var_SetMulti_witness :
  as_multiValued (VarOpt_Value (MkVarOpt "n" "" "" intValue false)) = None ∧
  VarOpt_SetMulti (MkVarOpt "n" "" "" intValue false) ["1"] (Param 1, ∅) = Panic "Bug" ∧
  VarArg_SetMulti (MkVarArg "N" "" "" intsValue false) ["1"] (Param 1, ∅)
  = intsParam_SetMulti ["1"] (Param 1, ∅).
Proof.
  split; [reflexivity|]. split.
  - exact (proj1 (C7_Var_SetMulti (MkVarOpt "n" "" "" intValue false)
                    (MkVarArg "N" "" "" intValue false) ["1"] (Param 1, ∅))
             (or_introl eq_refl)).
  - exact (proj2 (proj2 (proj2
             (C7_Var_SetMulti (MkVarOpt "n" "" "" intsValue false)
                (MkVarArg "N" "" "" intsValue false) ["1"] (Param 1, ∅))))
             (MultiValued intsParam_IsMultiValued intsParam_SetMulti)
             eq_refl eq_refl).
Defined.

(** ** Environment fallback *)

Lemma length_zero_iff (s : string) : String.length s = 0%nat ↔ s = "".
Proof. by destruct s. Qed.

Lemma setFromEnv_range_tryNames {S} (into : Value S) env (s0 : S) revs : ∀ s,
  setFromEnv_range into env
    match as_multiValued into with
    | Some m => IsMultiValued m s0
    | None => false
    end (as_multiValued into) revs s
  = tryNames into env s0
      (filter (λ ev, ev ≠ "") (strings.TrimSpace <$> revs)) s.
Proof.
  induction revs as [|rev revs IH]; intros s; [done|].
  rewrite fmap_cons, filter_cons. simpl.
  destruct (decide (String.length (strings.TrimSpace rev) = 0%nat)) as [Hev|Hev].
  { apply length_zero_iff in Hev.
    rewrite (decide_False (P := strings.TrimSpace rev ≠ "")) by (intros Hne; by apply Hne).
    apply IH. }
  rewrite (decide_True (P := strings.TrimSpace rev ≠ ""))
    by (intros Heq; apply Hev; by rewrite Heq).
  simpl.
  destruct (decide (String.length (Getenv env (strings.TrimSpace rev)) = 0%nat)) as [Hv|Hv].
  { apply length_zero_iff in Hv.
    rewrite (decide_True (P := Getenv env (strings.TrimSpace rev) = "")) by done.
    apply IH. }
  rewrite (decide_False (P := Getenv env (strings.TrimSpace rev) = ""))
    by (intros Heq; apply Hv; by rewrite Heq).
  unfold envCall. revert IH.
  destruct (as_multiValued into) as [m|]; simpl.
  - destruct (IsMultiValued m s0); simpl; intros IH; unfold mbind, M_bind.
    + destruct (SetMulti m _ s) as [[e|] s'|msg]; [|done..]. apply IH.
    + destruct (Set' into _ s) as [[e|] s'|msg]; [|done..]. apply IH.
  - intros IH. unfold mbind, M_bind.
    destruct (Set' into _ s) as [[e|] s'|msg]; [|done..]. apply IH.
Qed.

(** [setFromEnv] is the scan of the candidate names [envNames]. *)
Lemma setFromEnv_tryNames {S} (into : Value S) env envVars s :
  setFromEnv into env envVars s = tryNames into env s (envNames envVars) s.
Proof.
  unfold setFromEnv, envNames. case_decide as Hlen.
  - apply setFromEnv_range_tryNames.
  - assert (envVars = "") as -> by (apply length_zero_iff; lia). by vm_compute.
Qed.

Lemma envCall_atomic {S} (into : Value S) s0 v :
  lawful into → failure_atomic (envCall into s0 v).
Proof.
  intros [HSet HMulti]. unfold envCall.
  destruct (as_multiValued into) as [m|] eqn:Hm; [|apply HSet].
  destruct (IsMultiValued m s0); [by apply HMulti | apply HSet].
Qed.

Ltac atomic_call :=
  intros [p h] e s';
  unfold boolParam_Set, stringParam_Set, intParam_Set, stringsParam_Set,
    stringsParam_SetMulti, intsParam_Set, intsParam_SetMulti,
    mbind, M_bind, mret, M_ret, load, store, new, set_into;
  repeat case_match; congruence.

Lemma boolValue_lawful : lawful boolValue.
Proof. split; [intros v; simpl; atomic_call | by intros m vs [=]]. Qed.

Lemma stringValue_lawful : lawful stringValue.
Proof. split; [intros v; simpl; atomic_call | by intros m vs [=]]. Qed.

Lemma intValue_lawful : lawful intValue.
Proof. split; [intros v; simpl; atomic_call | by intros m vs [=]]. Qed.

Lemma stringsValue_lawful : lawful stringsValue.
Proof. split; [intros v | intros m vs [= <-]]; simpl; atomic_call. Qed.

Lemma intsValue_lawful : lawful intsValue.
Proof. split; [intros v | intros m vs [= <-]]; simpl; atomic_call. Qed.

Lemma tryNames_scan {S} (into : Value S) env (s : S) names :
  lawful into →
  (Forall (passed_over into env s) names ∧ tryNames into env s names s = Done () s) ∨
  (∃ pre ev post,
     names = pre ++ ev :: post ∧
     Forall (passed_over into env s) pre ∧
     Getenv env ev ≠ "" ∧
     ((∃ s', envCall into s (Getenv env ev) s = Done None s' ∧
             tryNames into env s names s = Done () s') ∨
      (∃ msg, envCall into s (Getenv env ev) s = Panic msg ∧
              tryNames into env s names s = Panic msg))).
Proof.
  intros Hlawful. induction names as [|ev names IH]; [left; by split|].
  assert (passed_over into env s ev →
          tryNames into env s names s = tryNames into env s (ev :: names) s) as Hskip.
  { intros [Hv|[e He]]; simpl; [by rewrite decide_True|].
    case_decide; [done|]. unfold mbind, M_bind. by rewrite He. }
  destruct (decide (Getenv env ev = "")) as [Hv|Hv].
  { assert (passed_over into env s ev) as Hev by (by left).
    rewrite <- (Hskip Hev).
    destruct IH as [[Hall Hrun]|(pre & ev' & post & -> & Hpre & Hrest)].
    - left. split; [by constructor|done].
    - right. exists (ev :: pre), ev', post. split_and!; [done|by constructor|..]; tauto. }
  destruct (envCall into s (Getenv env ev) s) as [[e|] s'|msg] eqn:Hcall.
  - assert (s' = s) as -> by (by eapply envCall_atomic).
    assert (passed_over into env s ev) as Hev by (right; by exists e).
    rewrite <- (Hskip Hev).
    destruct IH as [[Hall Hrun]|(pre & ev' & post & -> & Hpre & Hrest)].
    + left. split; [by constructor|done].
    + right. exists (ev :: pre), ev', post. split_and!; [done|by constructor|..]; tauto.
  - right. exists [], ev, names. split_and!; [done|by constructor|done|].
    left. exists s'. split; [done|]. simpl. rewrite decide_False by done.
    unfold mbind, M_bind. by rewrite Hcall.
  - right. exists [], ev, names. split_and!; [done|by constructor|done|].
    right. exists msg. split; [done|]. simpl. rewrite decide_False by done.
    unfold mbind, M_bind. by rewrite Hcall.
Qed.

(** C3: for a parameter that keeps the contract ([Set] and [SetMulti] fail
    without mutating), [setFromEnv] goes through the candidate names from
    left to right, passes over those whose variable is unset or empty and
    those whose call fails, and ends at the first name whose call does not
    fail: its state is then the result of that one call on the initial
    state.  When every name is passed over, the state is the initial one.
    No error is returned in either case; the only other outcome is a panic
    of the call itself. *)
Theorem C3_setFromEnv {S} (into : Value S) (env : gmap string string)
    (envVars : string) (s : S) :
  lawful into →
  (Forall (passed_over into env s) (envNames envVars) ∧
   setFromEnv into env envVars s = Done () s) ∨
  (∃ pre ev post,
     envNames envVars = pre ++ ev :: post ∧
     Forall (passed_over into env s) pre ∧
     Getenv env ev ≠ "" ∧
     ((∃ s', envCall into s (Getenv env ev) s = Done None s' ∧
             setFromEnv into env envVars s = Done () s') ∨
      (∃ msg, envCall into s (Getenv env ev) s = Panic msg ∧
              setFromEnv into env envVars s = Panic msg))).
Proof.
  intros Hlawful. rewrite setFromEnv_tryNames. by apply tryNames_scan.
Qed.

Lemma C3_setFromEnv_witness :
  lawful intValue ∧
  ((Forall (passed_over intValue {["B" := "5"]} (Param 1, {[1%positive := 0]}))
      (envNames "A B") ∧
    setFromEnv intValue {["B" := "5"]} "A B" (Param 1, {[1%positive := 0]})
    = Done () (Param 1, {[1%positive := 0]})) ∨
   (∃ pre ev post,
      envNames "A B" = pre ++ ev :: post ∧
      Forall (passed_over intValue {["B" := "5"]} (Param 1, {[1%positive := 0]})) pre ∧
      Getenv {["B" := "5"]} ev ≠ "" ∧
      ((∃ s', envCall intValue (Param 1, {[1%positive := 0]}) (Getenv {["B" := "5"]} ev)
                (Param 1, {[1%positive := 0]}) = Done None s' ∧
              setFromEnv intValue {["B" := "5"]} "A B" (Param 1, {[1%positive := 0]})
              = Done () s') ∨
       (∃ msg, envCall intValue (Param 1, {[1%positive := 0]}) (Getenv {["B" := "5"]} ev)
                 (Param 1, {[1%positive := 0]}) = Panic msg ∧
               setFromEnv intValue {["B" := "5"]} "A B" (Param 1, {[1%positive := 0]})
               = Panic msg)))).
Proof.
  split; [exact intValue_lawful|].
  exact (C3_setFromEnv intValue {["B" := "5"]} "A B" (Param 1, {[1%positive := 0]})
           intValue_lawful).
Defined.

(** The examples of the specification: [A] unset and [B="5"] give 5; with
    both unset the default stays; a batch [B="1,2,3"] gives [[1; 2; 3]]. *)
Example setFromEnv_int_B :
  setFromEnv intValue {["B" := "5"]} "A B" (Param 1, {[1%positive := 0]})
  = Done () (Param 1, {[1%positive := 5]}).
Proof. by vm_compute. Qed.

Example setFromEnv_int_unset :
  setFromEnv intValue ∅ "A B" (Param 1, {[1%positive := 42]})
  = Done () (Param 1, {[1%positive := 42]}).
Proof. by vm_compute. Qed.

Example setFromEnv_ints_batch :
  setFromEnv intsValue {["B" := "1,2,3"]} "A B" (Param 1, {[1%positive := []]})
  = Done () (Param 2, {[1%positive := []; 2%positive := [1; 2; 3]]}).
Proof. by vm_compute. Qed.

(** ** Candidate names *)

Lemma splitSpace_Split s : ∀ fuel,
  (String.length s < fuel)%nat → spaceOnly s = true →
  splitSpace fuel s = strings.Split s " ".
Proof.
  induction s as [|c s IH]; intros [|fuel] Hlen Hsp; cbn [String.length] in Hlen; try lia.
  - cbn [splitSpace].
    replace (strings.cutRune strings.spaceRunes "") with (@None string) by (by vm_compute).
    done.
  - cbn [spaceOnly] in Hsp. apply andb_true_iff in Hsp as [Hc Hs].
    cbn [splitSpace strings.Split]. case_decide as Hsep.
    + subst c.
      replace (strings.cutRune strings.spaceRunes (String " " s)) with (Some s)
        by (by vm_compute).
      rewrite IH by (done || lia). done.
    + destruct (strings.cutRune strings.spaceRunes (String c s)); [done|].
      rewrite IH by (done || lia). done.
Qed.

Lemma Split_space_SplitSpace envVars :
  spaceOnly envVars = true → strings.Split envVars " " = SplitSpace envVars.
Proof. intros Hsp. unfold SplitSpace. by rewrite splitSpace_Split by (done || lia). Qed.

Lemma envNames_app_space a b :
  envNames (a +:+ String " " b) = envNames a ++ envNames b.
Proof. unfold envNames. by rewrite Split_app_sep, fmap_app, filter_app. Qed.

Lemma envNames_spaces n b : envNames (spaces n +:+ b) = envNames b.
Proof.
  induction n as [|n IH]; [done|].
  change (spaces (Datatypes.S n) +:+ b) with ("" +:+ String " " (spaces n +:+ b)).
  rewrite envNames_app_space, IH. done.
Qed.

(** C8, as stated, fails: a tab between two names does not separate them.
    The name list "A<tab>B" has the one candidate "A<tab>B", not the
    candidates "A" and "B" of "A B", and a value of [B] is not found. *)
Lemma C8_counterexample :
  envNames ("A" +:+ tab +:+ "B") = ["A" +:+ tab +:+ "B"] ∧
  envNames_spec ("A" +:+ tab +:+ "B") = ["A"; "B"] ∧
  envNames ("A" +:+ tab +:+ "B") ≠ envNames_spec ("A" +:+ tab +:+ "B") ∧
  setFromEnv intValue {["B" := "5"]} ("A" +:+ tab +:+ "B") (Param 1, {[1%positive := 0]})
  = Done () (Param 1, {[1%positive := 0]}) ∧
  setFromEnv intValue {["B" := "5"]} "A B" (Param 1, {[1%positive := 0]})
  = Done () (Param 1, {[1%positive := 5]}).
Proof. split_and!; by vm_compute. Qed.

(** C8, amended: [setFromEnv] splits the name list at every single space
    and only there, trims each piece of its surrounding white space and
    leaves out the pieces that are empty then; these are the names it
    looks up, in this order.  One space or several between two parts of
    a list give the candidates of the one part followed by those of the
    other; a list without a space is one candidate at most, whatever
    other white space it holds; and when the space is the only white
    space in the list, the candidates are those of a split on white
    space. *)
Theorem C8_envNames :
  (∀ S (into : Value S) env envVars s,
     setFromEnv into env envVars s
     = tryNames into env s
         (filter (λ ev, ev ≠ "") (strings.TrimSpace <$> strings.Split envVars " ")) s) ∧
  (∀ a b n,
     envNames (a +:+ spaces (Datatypes.S n) +:+ b) = envNames a ++ envNames b) ∧
  envNames "" = [] ∧
  (∀ envVars, " "%char ∉ bytes envVars →
     envNames envVars
     = if decide (strings.TrimSpace envVars = "") then [] else [strings.TrimSpace envVars]) ∧
  (∀ envVars, spaceOnly envVars = true →
     envNames envVars = envNames_spec envVars).
Proof.
  split_and!.
  - intros S into env envVars s. apply setFromEnv_tryNames.
  - intros a b n.
    change (a +:+ spaces (Datatypes.S n) +:+ b) with (a +:+ String " " (spaces n +:+ b)).
    by rewrite envNames_app_space, envNames_spaces.
  - by vm_compute.
  - intros envVars Hsp. unfold envNames. rewrite Split_no_sep by done.
    cbn [fmap list_fmap]. rewrite filter_cons, filter_nil.
    by repeat case_decide.
  - intros envVars Hsp. unfold envNames, envNames_spec.
    by rewrite Split_space_SplitSpace.
Qed.

Lemma C8_envNames_witness :
  ((" "%char ∉ bytes ("A" +:+ tab +:+ "B")) ∧
   envNames ("A" +:+ tab +:+ "B") = ["A" +:+ tab +:+ "B"]) ∧
  (spaceOnly "DB_HOST  HOST" = true ∧
   envNames "DB_HOST  HOST" = envNames_spec "DB_HOST  HOST").
Proof.
  assert (" "%char ∉ bytes ("A" +:+ tab +:+ "B")) as Htab
    by (apply (bool_decide_unpack _); vm_compute; exact I).
  split.
  - split; [exact Htab|].
    exact (proj1 (proj2 (proj2 (proj2 C8_envNames))) ("A" +:+ tab +:+ "B") Htab).
  - split; [reflexivity|].
    exact (proj2 (proj2 (proj2 (proj2 C8_envNames))) "DB_HOST  HOST" eq_refl).
Defined.

(** ** Batches that are empty after trimming *)

Ltac space_rune_cases H :=
  let l := fresh "l" in
  set (l := strings.spaceRunes) in H; vm_compute in l; subst l;
  repeat (apply elem_of_cons in H as [->|H]); [..|by apply elem_of_nil in H].

Lemma length_app (r s : string) :
  String.length (r +:+ s) = (String.length r + String.length s)%nat.
Proof. induction r as [|c r IH]; [done|]. cbn. by rewrite <- IH. Qed.

Lemma cutRune_spaceRune r s :
  r ∈ strings.spaceRunes → strings.cutRune strings.spaceRunes (r +:+ s) = Some s.
Proof. intros Hr. space_rune_cases Hr; by vm_compute. Qed.

Lemma spaceRune_length r : r ∈ strings.spaceRunes → (1 ≤ String.length r)%nat.
Proof. intros Hr. space_rune_cases Hr; cbn; lia. Qed.

Lemma spaceRune_no_comma r : r ∈ strings.spaceRunes → ","%char ∉ bytes r.
Proof.
  intros Hr. space_rune_cases Hr; apply (bool_decide_unpack _); by vm_compute.
Qed.

Lemma blank_trimRunes s :
  blank s → ∀ fuel, (String.length s ≤ fuel)%nat →
  strings.trimRunes strings.spaceRunes fuel s = "".
Proof.
  induction 1 as [|r s Hr Hs IH]; intros fuel Hfuel.
  - destruct fuel; [done|]. cbn [strings.trimRunes].
    by replace (strings.cutRune strings.spaceRunes "") with (@None string) by by vm_compute.
  - rewrite length_app in Hfuel. pose proof (spaceRune_length r Hr).
    destruct fuel as [|fuel]; [lia|]. cbn [strings.trimRunes].
    rewrite cutRune_spaceRune by done. apply IH. lia.
Qed.

Lemma blank_TrimSpace s : blank s → strings.TrimSpace s = "".
Proof.
  intros Hs. unfold strings.TrimSpace, strings.TrimLeftSpace.
  by rewrite blank_trimRunes.
Qed.

Lemma Split_app_no_sep r s sep :
  sep ∉ bytes r →
  ∃ piece pieces, strings.Split s sep = piece :: pieces ∧
    strings.Split (r +:+ s) sep = (r +:+ piece) :: pieces.
Proof.
  induction r as [|c r IH]; intros Hsep.
  - destruct (strings.Split s sep) as [|piece pieces] eqn:E.
    + by destruct (Split_nonempty s sep).
    + by exists piece, pieces.
  - simpl in Hsep. apply not_elem_of_cons in Hsep as [Hc Hr].
    destruct (IH Hr) as (piece & pieces & Hs & Hrs).
    exists piece, pieces. split; [done|].
    change (String c r +:+ s) with (String c (r +:+ s)). simpl.
    rewrite decide_False by done. by rewrite Hrs.
Qed.

Lemma Split_commas_and_spaces v :
  commas_and_spaces v → Forall blank (strings.Split v ",").
Proof.
  induction 1 as [|s Hs IH|r s Hr Hs IH].
  - repeat constructor.
  - simpl. constructor; [constructor|done].
  - destruct (Split_app_no_sep r s "," (spaceRune_no_comma r Hr))
      as (piece & pieces & Hsplit & ->).
    rewrite Hsplit in IH. inversion IH; subst.
    constructor; [by constructor|done].
Qed.

Lemma trimmed_blank vs :
  Forall (λ v, strings.TrimSpace v = "") vs → trimmed vs = [].
Proof.
  induction 1 as [|v vs Hv Hvs IH]; [done|].
  rewrite trimmed_cons. by rewrite decide_True.
Qed.

Lemma tryNames_passed_over {S} (into : Value S) env (s : S) pre names :
  Forall (passed_over into env s) pre →
  tryNames into env s (pre ++ names) s = tryNames into env s names s.
Proof.
  induction 1 as [|ev pre Hev Hpre IH]; [done|]. simpl.
  destruct Hev as [Hv|[e He]]; [by rewrite decide_True|].
  case_decide; [done|]. unfold mbind, M_bind. by rewrite He.
Qed.

(** C10: [SetMulti] on a repeated integer parameter succeeds on a batch
    whose elements all are empty after trimming, the empty batch among
    them, and makes the parameter's sequence empty; the pieces between
    the commas of a value made of commas and white space only form such a
    batch; and in [setFromEnv] the first name that is not passed over and
    whose value gives such a batch ends the scan with the empty sequence,
    whatever the later names hold.  The same holds for [IntsArg]. *)
Theorem C10_blank_batch :
  (∀ vs (p : intsParam) h,
     Forall (λ v, strings.TrimSpace v = "") vs →
     intsParam_SetMulti vs (p, h)
     = Done None (Param (fresh (dom h)), <[fresh (dom h) := []]> h) ∧
     IntsArg_SetMulti vs (p, h)
     = Done None (Param (fresh (dom h)), <[fresh (dom h) := []]> h)) ∧
  (∀ v, commas_and_spaces v →
     Forall (λ piece, strings.TrimSpace piece = "") (strings.Split v ",")) ∧
  (∀ env envVars pre ev post (p : intsParam) h,
     envNames envVars = pre ++ ev :: post →
     Forall (passed_over intsValue env (p, h)) pre →
     Getenv env ev ≠ "" →
     Forall (λ piece, strings.TrimSpace piece = "") (strings.Split (Getenv env ev) ",") →
     setFromEnv intsValue env envVars (p, h)
     = Done () (Param (fresh (dom h)), <[fresh (dom h) := []]> h)).
Proof.
  assert (∀ vs (p : intsParam) h,
            Forall (λ v, strings.TrimSpace v = "") vs →
            intsParam_SetMulti vs (p, h)
            = Done None (Param (fresh (dom h)), <[fresh (dom h) := []]> h)) as Hbatch.
  { intros vs p h Hvs. unfold intsParam_SetMulti.
    pose proof (intsParam_SetMulti_range_spec vs []) as Hloop.
    rewrite (trimmed_blank vs Hvs) in Hloop. simpl in Hloop. by rewrite Hloop. }
  split_and!.
  - intros vs p h Hvs. split; by apply Hbatch.
  - intros v Hv. eapply Forall_impl; [by apply Split_commas_and_spaces|].
    intros piece. apply blank_TrimSpace.
  - intros env envVars pre ev post p h Hnames Hpre Hv Hblank.
    rewrite setFromEnv_tryNames, Hnames, tryNames_passed_over by done.
    simpl. rewrite decide_False by done.
    unfold mbind, M_bind, envCall. simpl. by rewrite Hbatch.
Qed.

Lemma C10_blank_batch_witness :
  Forall (λ v, strings.TrimSpace v = "") [" "; ""; tab] ∧
  intsParam_SetMulti [" "; ""; tab] (Param 1, {[1%positive := [7]]})
  = Done None (Param (fresh (dom ({[1%positive := [7]]} : gmap positive (list Z)))),
               <[fresh (dom ({[1%positive := [7]]} : gmap positive (list Z))) := []]>
                 {[1%positive := [7]]}).
Proof.
  assert (Forall (λ v, strings.TrimSpace v = "") [" "; ""; tab]) as H
    by (repeat constructor).
  split; [exact H|].
  exact (proj1 (proj1 C10_blank_batch [" "; ""; tab] (Param 1) {[1%positive := [7]]} H)).
Defined.

Example commas_and_spaces_example : commas_and_spaces " , ,".
Proof.
  apply (cas_rune " " ", ,"); [apply (bool_decide_unpack _); by vm_compute|].
  apply cas_comma. apply (cas_rune " " ","); [apply (bool_decide_unpack _); by vm_compute|].
  apply cas_comma. apply cas_nil.
Qed.

Example setFromEnv_ints_blank :
  setFromEnv intsValue {["A" := " , ,"; "B" := "1,2"]} "A B" (Param 1, {[1%positive := [7]]})
  = Done () (Param 2, {[1%positive := [7]; 2%positive := []]}).
Proof. by vm_compute. Qed.

(** ** The cases of the test suite *)

Example TestBoolParam :
  boolParam_Set "true" (Param 1, {[1%positive := false]})
  = Done None (Param 1, {[1%positive := true]}) ∧
  boolParam_String (Param 1, {[1%positive := true]})
  = Done "true" (Param 1, {[1%positive := true]}) ∧
  boolParam_Set "123" (Param 1, {[1%positive := false]})
  = Done (Some (NumError (strconv.syntaxError "ParseBool" "123")))
      (Param 1, {[1%positive := false]}) ∧
  boolParam_Set "" (Param 1, {[1%positive := false]})
  = Done (Some (NumError (strconv.syntaxError "ParseBool" "")))
      (Param 1, {[1%positive := false]}).
Proof. split_and!; by vm_compute. Qed.

Example TestIntParam :
  intParam_Set "12" (Param 1, {[1%positive := 0]}) = Done None (Param 1, {[1%positive := 12]}) ∧
  intParam_Set "01" (Param 1, {[1%positive := 0]}) = Done None (Param 1, {[1%positive := 1]}) ∧
  intParam_Set "" (Param 1, {[1%positive := 0]})
  = Done (Some (NumError (strconv.syntaxError "ParseInt" ""))) (Param 1, {[1%positive := 0]}) ∧
  intParam_Set "abc" (Param 1, {[1%positive := 0]})
  = Done (Some (NumError (strconv.syntaxError "ParseInt" "abc"))) (Param 1, {[1%positive := 0]}).
Proof. split_and!; by vm_compute. Qed.

Example TestStringsParam :
  (_ ← stringsParam_SetMulti ["a"; " b "];
   _ ← stringsParam_Set "c";
   stringsParam_Set "d") (Param 1, {[1%positive := []]})
  = Done None (Param 2, {[1%positive := []; 2%positive := ["a"; "b"; "c"; "d"]]}).
Proof. by vm_compute. Qed.

Example TestIntsParam :
  intsParam_SetMulti ["1"; "a"] (Param 1, {[1%positive := []]})
  = Done (Some (NumError (strconv.syntaxError "ParseInt" "a"))) (Param 1, {[1%positive := []]}) ∧
  intsParam_SetMulti ["1"; "  "; "2"] (Param 1, {[1%positive := []]})
  = Done None (Param 2, {[1%positive := []; 2%positive := [1; 2]]}) ∧
  intsParam_Set "c" (Param 2, {[1%positive := []; 2%positive := [1; 2]]})
  = Done (Some (NumError (strconv.syntaxError "ParseInt" "c")))
      (Param 2, {[1%positive := []; 2%positive := [1; 2]]}) ∧
  intsParam_Set "3" (Param 2, {[1%positive := []; 2%positive := [1; 2]]})
  = Done None (Param 2, {[1%positive := []; 2%positive := [1; 2; 3]]}).
Proof. split_and!; by vm_compute. Qed.

(** * Further properties *)

(** ** Decimal rendering *)

Lemma app_assoc_s (a b c : string) : (a +:+ b) +:+ c = a +:+ (b +:+ c).
Proof.
  induction a as [|x a IH]; [done|].
  change (String x ((a +:+ b) +:+ c) = String x (a +:+ (b +:+ c))). by rewrite IH.
Qed.

Lemma app_nil_r_s (a : string) : a +:+ "" = a.
Proof.
  induction a as [|x a IH]; [done|].
  change (String x (a +:+ "") = String x a). by rewrite IH.
Qed.

Lemma decimal_app s1 : ∀ acc s2,
  decimal acc (s1 +:+ s2) = decimal acc s1 ≫= λ v, decimal v s2.
Proof.
  induction s1 as [|c s1 IH]; intros acc s2; [done|].
  change (String c s1 +:+ s2) with (String c (s1 +:+ s2)). simpl.
  destruct (isDigit c); [apply IH|done].
Qed.

Lemma digitAt_digit d :
  0 ≤ d ≤ 9 →
  isDigit (strconv.digitAt d) = true ∧ strconv.code (strconv.digitAt d) = 48 + d.
Proof.
  intros Hd.
  assert (d = 0 ∨ d = 1 ∨ d = 2 ∨ d = 3 ∨ d = 4 ∨ d = 5 ∨ d = 6 ∨ d = 7 ∨ d = 8 ∨ d = 9)
    as Hcases by lia.
  destruct_or!; subst d; by vm_compute.
Qed.

Lemma formatBits_loop_S fuel b u a :
  strconv.formatBits_loop (Datatypes.S fuel) b u a =
  if b <=? u
  then strconv.formatBits_loop fuel b (u / b) (String (strconv.digitAt (u - u / b * b)) a)
  else String (strconv.digitAt u) a.
Proof. reflexivity. Qed.

Lemma formatBits_loop_spec fuel : ∀ u a,
  0 ≤ u < 10 ^ Z.of_nat (Datatypes.S fuel) →
  ∃ digs P,
    strconv.formatBits_loop (Datatypes.S fuel) 10 u a = digs +:+ a ∧
    digs ≠ "" ∧ 0 < P ∧
    ∀ acc, decimal acc digs = Some (acc * P + u).
Proof.
  induction fuel as [|fuel IH]; intros u a Hu.
  - change (10 ^ Z.of_nat 1) with 10 in Hu. simpl.
    rewrite (proj2 (Z.leb_gt _ _)) by lia.
    destruct (digitAt_digit u) as [Hdig Hcode]; [lia|].
    exists (String (strconv.digitAt u) ""), 10. split_and!; [done|done|lia|].
    intros acc. simpl. rewrite Hdig, Hcode. f_equal. lia.
  - rewrite formatBits_loop_S.
    destruct (Z.leb_spec 10 u) as [Hge|Hlt].
    + assert (0 ≤ u - u / 10 * 10 ≤ 9) as Hlast by (pose proof (Z.mod_pos_bound u 10); pose proof (Z.div_mod u 10); lia).
      destruct (digitAt_digit _ Hlast) as [Hdig Hcode].
      destruct (IH (u / 10) (String (strconv.digitAt (u - u / 10 * 10)) a))
        as (digs & P & Hfmt & Hne & HP & Hdec).
      { rewrite Nat2Z.inj_succ, Z.pow_succ_r in Hu by lia.
        split; [apply Z.div_pos; lia|]. apply Z.div_lt_upper_bound; lia. }
      exists (digs +:+ String (strconv.digitAt (u - u / 10 * 10)) ""), (10 * P).
      split_and!.
      * rewrite Hfmt. by rewrite app_assoc_s.
      * by destruct digs.
      * lia.
      * intros acc. rewrite decimal_app, Hdec. simpl. rewrite Hdig, Hcode.
        f_equal. lia.
    + destruct (digitAt_digit u) as [Hdig Hcode]; [lia|].
      exists (String (strconv.digitAt u) ""), 10. split_and!; [done|done|lia|].
      intros acc. simpl. rewrite Hdig, Hcode. f_equal. lia.
Qed.

Lemma base10_digit_first c r :
  isDigit c = true →
  base10 (String c r) =
  match decimal 0 (String c r) with
  | Some v => if decide (- 2 ^ 63 ≤ v < 2 ^ 63) then Some v else None
  | None => None
  end.
Proof.
  intros Hc. destruct c as [[] [] [] [] [] [] [] []];
    vm_compute in Hc; try discriminate Hc; reflexivity.
Qed.

Lemma decimal_first_digit acc digs v :
  digs ≠ "" → decimal acc digs = Some v → ∃ c r, digs = String c r ∧ isDigit c = true.
Proof.
  destruct digs as [|c r]; [done|]. intros _. simpl.
  destruct (isDigit c) eqn:Hc; [|done]. by eauto.
Qed.

(** The decimal rendering of a 64-bit integer is a string of the grammar
    [base10], with the integer as its value. *)
Lemma base10_FormatInt z :
  - 2 ^ 63 ≤ z < 2 ^ 63 → base10 (strconv.FormatInt z 10) = Some z.
Proof.
  intros Hz. unfold strconv.FormatInt, strconv.formatBits.
  destruct (Z.ltb_spec z 0) as [Hneg|Hpos].
  - assert (strconv.uint64 (- strconv.uint64 z) = - z) as ->.
    { unfold strconv.uint64. symmetry.
      rewrite <- (Z.mod_unique_pos z (2 ^ 64) (-1) (z + 2 ^ 64)) by lia.
      apply Z.mod_unique_pos with (-1); lia. }
    destruct (formatBits_loop_spec 64 (- z) "") as (digs & P & -> & Hne & HP & Hdec).
    { change (10 ^ Z.of_nat 65) with 100000000000000000000000000000000000000000000000000000000000000000. lia. }
    rewrite app_nil_r_s. unfold base10. rewrite decide_False by done.
    rewrite Hdec. simpl. rewrite decide_True by lia. f_equal. lia.
  - assert (strconv.uint64 z = z) as -> by (unfold strconv.uint64; apply Z.mod_small; lia).
    destruct (formatBits_loop_spec 64 z "") as (digs & P & -> & Hne & HP & Hdec).
    { change (10 ^ Z.of_nat 65) with 100000000000000000000000000000000000000000000000000000000000000000. lia. }
    rewrite app_nil_r_s.
    destruct (decimal_first_digit 0 digs _ Hne (Hdec 0)) as (c & r & -> & Hc).
    rewrite base10_digit_first by done. rewrite Hdec. simpl.
    by rewrite decide_True by lia.
Qed.

Lemma intParam_Set_spec s (p : intParam) h old :
  h !! into p = Some old →
  match base10 s with
  | Some z => intParam_Set s (p, h) = Done None (p, <[into p := z]> h)
  | None => ∃ e, intParam_Set s (p, h) = Done (Some e) (p, h)
  end.
Proof.
  intros Hold. unfold intParam_Set.
  pose proof (ParseInt_base10 s) as Hparse.
  destruct (base10 s) as [z|].
  - destruct Hparse as [-> Hz]. rewrite int_small by done.
    unfold mbind, M_bind, mret, M_ret. by rewrite (store_Done _ _ old).
  - destruct Hparse as (x & e & ->). by eauto.
Qed.

(** X1: the text that [String] gives for an integer parameter is the
    decimal rendering of the stored integer, and it is accepted by [Set],
    which stores the same integer again: on the parameter itself the state
    does not change, on any other integer parameter the stored value
    becomes that integer.  The same holds for [IntArg]. *)
Theorem X1_int_String_Set (p : intParam) (h : gmap positive Z) (z : Z) :
  h !! into p = Some z →
  - 2 ^ 63 ≤ z < 2 ^ 63 →
  intParam_String (p, h) = Done (strconv.FormatInt z 10) (p, h) ∧
  IntArg_String (p, h) = Done (strconv.FormatInt z 10) (p, h) ∧
  intParam_Set (strconv.FormatInt z 10) (p, h) = Done None (p, h) ∧
  IntArg_Set (strconv.FormatInt z 10) (p, h) = Done None (p, h) ∧
  ∀ (q : intParam) h' old,
    h' !! into q = Some old →
    intParam_Set (strconv.FormatInt z 10) (q, h') = Done None (q, <[into q := z]> h').
Proof.
  intros Hz Hrange.
  assert (∀ (q : intParam) h' old,
            h' !! into q = Some old →
            intParam_Set (strconv.FormatInt z 10) (q, h')
            = Done None (q, <[into q := z]> h')) as Hset.
  { intros q h' old Hold.
    pose proof (intParam_Set_spec (strconv.FormatInt z 10) q h' old Hold) as H.
    by rewrite base10_FormatInt in H. }
  split_and!; [| | | |done].
  - unfold intParam_String, mbind, M_bind. by rewrite (load_Done _ _ z).
  - unfold IntArg_String, mbind, M_bind. by rewrite (load_Done _ _ z).
  - rewrite (Hset p h z Hz). by rewrite insert_id.
  - change IntArg_Set with intParam_Set. rewrite (Hset p h z Hz). by rewrite insert_id.
Qed.

Lemma X1_int_String_Set_witness :
  ({[1%positive := -42]} : gmap positive Z) !! into (Param 1 : intParam) = Some (-42) ∧
  (- 2 ^ 63 ≤ -42 < 2 ^ 63) ∧
  intParam_String (Param 1, {[1%positive := -42]})
  = Done (strconv.FormatInt (-42) 10) (Param 1, {[1%positive := -42]}) ∧
  intParam_Set (strconv.FormatInt (-42) 10) (Param 1, {[1%positive := -42]})
  = Done None (Param 1, {[1%positive := -42]}).
Proof.
  assert (- 2 ^ 63 ≤ -42 < 2 ^ 63) as Hr by lia.
  pose proof (X1_int_String_Set (Param 1) {[1%positive := -42]} (-42) eq_refl Hr)
    as (H1 & _ & H3 & _).
  split; [reflexivity|]. split; [exact Hr|]. split; [exact H1|exact H3].
Defined.

Example FormatInt_examples :
  strconv.FormatInt 0 10 = "0" ∧ strconv.FormatInt 12 10 = "12" ∧
  strconv.FormatInt (-9223372036854775808) 10 = "-9223372036854775808".
Proof. split_and!; by vm_compute. Qed.

(** ** Rendering of a sequence of integers *)

Lemma plain_cases c :
  plain c →
  c = "-"%char ∨ c = "0"%char ∨ c = "1"%char ∨ c = "2"%char ∨ c = "3"%char ∨
  c = "4"%char ∨ c = "5"%char ∨ c = "6"%char ∨ c = "7"%char ∨ c = "8"%char ∨
  c = "9"%char.
Proof.
  unfold plain. simpl. rewrite !elem_of_cons, elem_of_nil. tauto.
Qed.

Lemma digitAt_plain d : 0 ≤ d ≤ 9 → plain (strconv.digitAt d).
Proof.
  intros Hd.
  assert (d = 0 ∨ d = 1 ∨ d = 2 ∨ d = 3 ∨ d = 4 ∨ d = 5 ∨ d = 6 ∨ d = 7 ∨ d = 8 ∨ d = 9)
    as Hcases by lia.
  destruct_or!; subst d; apply (bool_decide_unpack _); by vm_compute.
Qed.

Lemma formatBits_loop_plain fuel : ∀ u a,
  0 ≤ u → Forall plain (bytes a) →
  Forall plain (bytes (strconv.formatBits_loop fuel 10 u a)).
Proof.
  induction fuel as [|fuel IH]; intros u a Hu Ha; [done|].
  rewrite formatBits_loop_S. destruct (Z.leb_spec 10 u) as [Hge|Hlt].
  - apply IH; [apply Z.div_pos; lia|]. simpl. constructor; [|done].
    apply digitAt_plain.
    pose proof (Z.mod_pos_bound u 10); pose proof (Z.div_mod u 10); lia.
  - simpl. constructor; [|done]. apply digitAt_plain. lia.
Qed.

Lemma FormatInt_plain z :
  - 2 ^ 63 ≤ z < 2 ^ 63 → Forall plain (bytes (Sprintf_v_int z)).
Proof.
  intros Hz. unfold Sprintf_v_int, strconv.FormatInt, strconv.formatBits.
  assert (Forall plain (bytes "")) as Hnil by constructor.
  destruct (Z.ltb_spec z 0) as [Hneg|Hpos].
  - cbn [bytes]. constructor; [apply (bool_decide_unpack _); by vm_compute|].
    apply formatBits_loop_plain; [|exact Hnil]. unfold strconv.uint64.
    apply Z.mod_pos_bound. lia.
  - apply formatBits_loop_plain; [|exact Hnil]. unfold strconv.uint64.
    apply Z.mod_pos_bound. lia.
Qed.

Lemma cutRune_plain c t :
  plain c →
  strings.cutRune strings.spaceRunes (String c t) = None ∧
  strings.cutRune (String.rev <$> strings.spaceRunes) (String c t) = None.
Proof.
  intros Hc. apply plain_cases in Hc. destruct_or!; subst c; by vm_compute.
Qed.

Lemma trimRunes_plain runes fuel s :
  strings.cutRune runes s = None → strings.trimRunes runes fuel s = s.
Proof. intros Hcut. destruct fuel; [done|]. simpl. by rewrite Hcut. Qed.

Lemma rev_app_rev_app s : ∀ a b,
  String.rev_app (String.rev_app s a) b = String.rev_app a (s +:+ b).
Proof.
  induction s as [|c s IH]; intros a b; [done|].
  simpl. rewrite IH. done.
Qed.

Lemma rev_involutive (s : string) : String.rev (String.rev s) = s.
Proof. unfold String.rev. rewrite rev_app_rev_app. simpl. apply app_nil_r_s. Qed.

Lemma rev_app_plain s : ∀ a,
  Forall plain (bytes s) → Forall plain (bytes a) →
  Forall plain (bytes (String.rev_app s a)).
Proof.
  induction s as [|c s IH]; intros a Hs Ha; [done|].
  simpl in *. inversion Hs; subst. apply IH; [done|]. by constructor.
Qed.

Lemma cutRune_plain_string runes s :
  (∀ c t, plain c → strings.cutRune runes (String c t) = None) →
  strings.cutRune runes "" = None →
  Forall plain (bytes s) → strings.cutRune runes s = None.
Proof.
  intros Hplain Hnil Hs. destruct s as [|c t]; [done|].
  simpl in Hs. inversion Hs; subst. by apply Hplain.
Qed.

Lemma TrimRightSpace_plain s :
  Forall plain (bytes s) → strings.TrimRightSpace s = s.
Proof.
  intros Hs. unfold strings.TrimRightSpace.
  rewrite trimRunes_plain; [apply rev_involutive|].
  apply cutRune_plain_string.
  - intros c t Hc. by apply cutRune_plain.
  - by vm_compute.
  - by apply rev_app_plain.
Qed.

Lemma TrimSpace_plain s : Forall plain (bytes s) → strings.TrimSpace s = s.
Proof.
  intros Hs. unfold strings.TrimSpace, strings.TrimLeftSpace.
  rewrite trimRunes_plain; [by apply TrimRightSpace_plain|].
  apply cutRune_plain_string; [|by vm_compute|done].
  intros c t Hc. by apply cutRune_plain.
Qed.

Lemma TrimSpace_space_plain s :
  Forall plain (bytes s) → strings.TrimSpace (String " " s) = s.
Proof.
  intros Hs. unfold strings.TrimSpace, strings.TrimLeftSpace.
  cbn [String.length strings.trimRunes].
  replace (strings.cutRune strings.spaceRunes (String " " s)) with (Some s)
    by by vm_compute.
  rewrite trimRunes_plain; [by apply TrimRightSpace_plain|].
  apply cutRune_plain_string; [|by vm_compute|done].
  intros c t Hc. by apply cutRune_plain.
Qed.

Lemma plain_no_comma s : Forall plain (bytes s) → ","%char ∉ bytes s.
Proof.
  intros Hs Hin. rewrite Forall_forall in Hs. apply Hs, plain_cases in Hin.
  destruct_or!; discriminate.
Qed.

(** The pieces between the commas of a joined list of plain, non-empty
    elements are, once trimmed, the elements. *)
Lemma trimmed_Split_Join elems :
  Forall (λ elem, elem ≠ "" ∧ Forall plain (bytes elem)) elems →
  trimmed (strings.Split (Join elems ", ") ",") = elems.
Proof.
  intros Helems. destruct elems as [|elem elems]; [by vm_compute|].
  unfold Join.
  assert (∀ pre, (pre = "" ∨ pre = " ") →
            trimmed (strings.Split (pre +:+ elem +:+ joinTail ", " elems) ",")
            = elem :: elems) as Hgen; [|by apply (Hgen ""); left].
  revert elem Helems. induction elems as [|elem' elems IH]; intros elem Helems pre Hpre;
    inversion Helems as [|? ? [Hne Hplain] Hrest]; subst.
  - simpl. rewrite app_nil_r_s.
    assert (strings.TrimSpace (pre +:+ elem) = elem) as Htrim
      by (destruct Hpre as [-> | ->];
          [by apply TrimSpace_plain | by apply TrimSpace_space_plain]).
    rewrite Split_no_sep.
    + unfold trimmed. simpl. rewrite filter_cons, Htrim. by rewrite decide_True.
    + destruct Hpre as [-> | ->]; [by apply plain_no_comma|].
      simpl. rewrite not_elem_of_cons. split; [done|by apply plain_no_comma].
  - assert (strings.TrimSpace (pre +:+ elem) = elem) as Htrim
      by (destruct Hpre as [-> | ->];
          [by apply TrimSpace_plain | by apply TrimSpace_space_plain]).
    assert (","%char ∉ bytes (pre +:+ elem)) as Hcomma.
    { destruct Hpre as [-> | ->]; [by apply plain_no_comma|].
      simpl. rewrite not_elem_of_cons. split; [done|by apply plain_no_comma]. }
    change (joinTail ", " (elem' :: elems))
      with (String "," (" " +:+ elem' +:+ joinTail ", " elems)).
    rewrite <- app_assoc_s.
    destruct (Split_app_no_sep (pre +:+ elem)
                (String "," (" " +:+ elem' +:+ joinTail ", " elems)) "," Hcomma)
      as (piece & pieces & Hsplit & ->).
    simpl in Hsplit. injection Hsplit as <- <-.
    rewrite app_nil_r_s, trimmed_cons, Htrim, decide_False by done.
    f_equal. apply (IH elem' Hrest " "). by right.
Qed.

Lemma intsParam_String_range_tail xs : ∀ idx res,
  (0 < idx)%nat →
  intsParam_String_range idx xs res = res +:+ joinTail ", " (Sprintf_v_int <$> xs).
Proof.
  induction xs as [|x xs IH]; intros idx res Hidx.
  - simpl. by rewrite app_nil_r_s.
  - cbn [intsParam_String_range]. rewrite decide_True by done.
    rewrite IH by lia. rewrite fmap_cons. cbn [joinTail foldr].
    by rewrite !app_assoc_s.
Qed.

Lemma intsParam_String_range_Join xs res :
  intsParam_String_range 0 xs res = res +:+ Join (Sprintf_v_int <$> xs) ", ".
Proof.
  destruct xs as [|x xs].
  - simpl. by rewrite app_nil_r_s.
  - cbn [intsParam_String_range]. rewrite decide_False by lia.
    rewrite intsParam_String_range_tail by lia.
    rewrite fmap_cons. unfold Join. by rewrite app_assoc_s.
Qed.

Lemma mapM_base10_FormatInt xs :
  Forall (λ z, - 2 ^ 63 ≤ z < 2 ^ 63) xs →
  mapM base10 (Sprintf_v_int <$> xs) = Some xs.
Proof.
  induction 1 as [|x xs Hx Hxs IH]; [done|].
  rewrite fmap_cons.
  change (mapM base10 (Sprintf_v_int x :: (Sprintf_v_int <$> xs)))
    with (y ← base10 (strconv.FormatInt x 10);
          k ← mapM base10 (Sprintf_v_int <$> xs); mret (y :: k)).
  rewrite base10_FormatInt by done. by rewrite IH.
Qed.

Lemma FormatInt_nonempty z :
  - 2 ^ 63 ≤ z < 2 ^ 63 → Sprintf_v_int z ≠ "".
Proof.
  intros Hz Heq. pose proof (base10_FormatInt z Hz) as Hb.
  unfold Sprintf_v_int in Heq. rewrite Heq in Hb. done.
Qed.

(** X2: [String] on a repeated integer parameter gives the decimal
    renderings of the elements, separated by a comma and a space, between
    brackets (so [[]] for the empty sequence).  The text between the
    brackets, split at its commas as [setFromEnv] splits the value of a
    variable, is a batch that [SetMulti] accepts and that gives back the
    same sequence.  The same holds for [IntsArg]. *)
Theorem X2_ints_String_SetMulti (p : intsParam) (h : gmap positive (list Z))
    (xs : list Z) :
  h !! into p = Some xs →
  Forall (λ z, - 2 ^ 63 ≤ z < 2 ^ 63) xs →
  let inner := Join (Sprintf_v_int <$> xs) ", " in
  intsParam_String (p, h) = Done ("[" +:+ inner +:+ "]") (p, h) ∧
  IntsArg_String (p, h) = Done ("[" +:+ inner +:+ "]") (p, h) ∧
  ∃ p' h',
    intsParam_SetMulti (strings.Split inner ",") (p, h) = Done None (p', h') ∧
    IntsArg_SetMulti (strings.Split inner ",") (p, h) = Done None (p', h') ∧
    h' !! into p' = Some xs.
Proof.
  intros Hxs Hrange inner.
  assert (intsParam_String (p, h) = Done ("[" +:+ inner +:+ "]") (p, h)) as HString.
  { unfold intsParam_String, mbind, M_bind. rewrite (load_Done _ _ xs) by done.
    rewrite intsParam_String_range_Join. unfold mret, M_ret.
    by rewrite app_assoc_s. }
  split_and!; [done|exact HString|].
  assert (mapM base10 (trimmed (strings.Split inner ",")) = Some xs) as Hparse.
  { unfold inner. rewrite trimmed_Split_Join.
    - by apply mapM_base10_FormatInt.
    - apply Forall_fmap. eapply Forall_impl; [exact Hrange|].
      intros z Hz. simpl. split; [by apply FormatInt_nonempty|by apply FormatInt_plain]. }
  exists (Param (fresh (dom h))), (<[fresh (dom h) := xs]> h).
  assert (intsParam_SetMulti (strings.Split inner ",") (p, h)
          = Done None (Param (fresh (dom h)), <[fresh (dom h) := xs]> h)) as HSet.
  { unfold intsParam_SetMulti.
    pose proof (intsParam_SetMulti_range_spec (strings.Split inner ",") []) as Hloop.
    rewrite Hparse in Hloop. by rewrite Hloop. }
  split_and!; [done|exact HSet|apply lookup_insert_eq].
Qed.

Lemma X2_ints_String_SetMulti_witness :
  ({[1%positive := [1; -2; 30]]} : gmap positive (list Z)) !! into (Param 1 : intsParam)
  = Some [1; -2; 30] ∧
  Forall (λ z, - 2 ^ 63 ≤ z < 2 ^ 63) [1; -2; 30] ∧
  intsParam_String (Param 1, {[1%positive := [1; -2; 30]]})
  = Done ("[" +:+ Join (Sprintf_v_int <$> [1; -2; 30]) ", " +:+ "]")
      (Param 1, {[1%positive := [1; -2; 30]]}).
Proof.
  assert (Forall (λ z, - 2 ^ 63 ≤ z < 2 ^ 63) [1; -2; 30]) as Hr
    by (repeat constructor; lia).
  split; [reflexivity|]. split; [exact Hr|].
  exact (proj1 (X2_ints_String_SetMulti (Param 1) {[1%positive := [1; -2; 30]]}
                  [1; -2; 30] eq_refl Hr)).
Defined.

Example intsParam_String_example :
  intsParam_String (Param 1, {[1%positive := [1; 2; 3]]})
  = Done "[1, 2, 3]" (Param 1, {[1%positive := [1; 2; 3]]}) ∧
  intsParam_String (Param 1, {[1%positive := []]})
  = Done "[]" (Param 1, {[1%positive := []]}).
Proof. split; by vm_compute. Qed.

(** ** Errors of the integer kinds *)

Lemma ParseInt_error s x e :
  strconv.ParseInt s 10 64 = (x, Some e) →
  strconv.Func e = "ParseInt" ∧ strconv.Num e = s.
Proof.
  unfold strconv.ParseInt. case_decide; [by intros [= <- <-]|].
  destruct (match s with
            | String "+" s' => (false, s')
            | String "-" s' => (true, s')
            | _ => (false, s)
            end) as [neg ds].
  destruct (strconv.ParseUint ds 10 64) as [un err].
  repeat case_match; by intros [= <- <-].
Qed.

Lemma base10_None_error s :
  base10 s = None →
  ∃ x e, strconv.ParseInt s 10 64 = (x, Some e) ∧
         strconv.Func e = "ParseInt" ∧ strconv.Num e = s.
Proof.
  intros Hs. pose proof (ParseInt_base10 s) as Hparse. rewrite Hs in Hparse.
  destruct Hparse as (x & e & He). exists x, e. split; [done|].
  by eapply ParseInt_error.
Qed.

Lemma intsParam_SetMulti_range_error vs : ∀ newValue i bad,
  list_find (λ v, base10 v = None) (trimmed vs) = Some (i, bad) →
  ∃ e, intsParam_SetMulti_range vs newValue = inl (NumError e) ∧
       strconv.Func e = "ParseInt" ∧ strconv.Num e = bad.
Proof.
  induction vs as [|v vs IH]; intros newValue i bad; [done|].
  rewrite trimmed_cons. cbn [intsParam_SetMulti_range].
  case_decide as Hv; [apply IH|].
  cbn [list_find]. case_decide as Hbad.
  - intros [= <- <-].
    destruct (base10_None_error _ Hbad) as (x & e & -> & Hfunc & Hnum).
    by exists e.
  - intros Hfind.
    destruct (list_find _ (trimmed vs)) as [[i' bad']|] eqn:Hrest; [|done].
    simpl in Hfind. injection Hfind as <- <-.
    pose proof (ParseInt_base10 (strings.TrimSpace v)) as Hparse.
    destruct (base10 (strings.TrimSpace v)) as [z|]; [|done].
    destruct Hparse as [-> _]. by eapply IH.
Qed.

(** X3: the error that [Set] and [SetMulti] of the integer kinds return is
    the one of [strconv.ParseInt]: it names that function and carries the
    offending text, which for [Set] is the raw token as given and for
    [SetMulti] the first element of the batch, in input order and after
    trimming, that is no decimal integer.  The same holds for [IntArg] and
    [IntsArg]. *)
Theorem X3_int_errors :
  (∀ s (p : intParam) h,
     base10 s = None →
     ∃ e, intParam_Set s (p, h) = Done (Some (NumError e)) (p, h) ∧
          IntArg_Set s (p, h) = Done (Some (NumError e)) (p, h) ∧
          strconv.Func e = "ParseInt" ∧ strconv.Num e = s) ∧
  (∀ s (p : intsParam) h,
     base10 s = None →
     ∃ e, intsParam_Set s (p, h) = Done (Some (NumError e)) (p, h) ∧
          IntsArg_Set s (p, h) = Done (Some (NumError e)) (p, h) ∧
          strconv.Func e = "ParseInt" ∧ strconv.Num e = s) ∧
  (∀ vs (p : intsParam) h i bad,
     list_find (λ v, base10 v = None) (trimmed vs) = Some (i, bad) →
     ∃ e, intsParam_SetMulti vs (p, h) = Done (Some (NumError e)) (p, h) ∧
          IntsArg_SetMulti vs (p, h) = Done (Some (NumError e)) (p, h) ∧
          strconv.Func e = "ParseInt" ∧ strconv.Num e = bad).
Proof.
  split_and!.
  - intros s p h Hs. destruct (base10_None_error s Hs) as (x & e & Hparse & Hfunc & Hnum).
    exists e. unfold intParam_Set, IntArg_Set. by rewrite Hparse.
  - intros s p h Hs. destruct (base10_None_error s Hs) as (x & e & Hparse & Hfunc & Hnum).
    exists e. unfold intsParam_Set, IntsArg_Set. by rewrite Hparse.
  - intros vs p h i bad Hfind.
    destruct (intsParam_SetMulti_range_error vs [] i bad Hfind) as (e & Hloop & Hfunc & Hnum).
    exists e.
    assert (intsParam_SetMulti vs (p, h) = Done (Some (NumError e)) (p, h)) as HSet
      by (unfold intsParam_SetMulti; by rewrite Hloop).
    split_and!; [exact HSet|exact HSet|done..].
Qed.

Lemma X3_int_errors_witness :
  list_find (λ v, base10 v = None) (trimmed ["1"; " x "; "y"]) = Some (1%nat, "x") ∧
  ∃ e, intsParam_SetMulti ["1"; " x "; "y"] (Param 1, ∅)
       = Done (Some (NumError e)) (Param 1, ∅) ∧
       IntsArg_SetMulti ["1"; " x "; "y"] (Param 1, ∅)
       = Done (Some (NumError e)) (Param 1, ∅) ∧
       strconv.Func e = "ParseInt" ∧ strconv.Num e = "x".
Proof.
  assert (list_find (λ v, base10 v = None) (trimmed ["1"; " x "; "y"]) = Some (1%nat, "x"))
    as H by (by vm_compute).
  split; [exact H|].
  exact (proj2 (proj2 X3_int_errors) ["1"; " x "; "y"] (Param 1) ∅ 1%nat "x" H).
Defined.

(** ** Sequences of [Set] calls on the repeated kinds *)

Lemma base10_leading_space v : base10 (String " " v) = None.
Proof. unfold base10. by rewrite decide_False by done. Qed.

(** X4: [Set] calls made one after the other on a repeated parameter
    append in the order of the calls: on strings every raw token, as it is
    given; on integers the value of every token that is a decimal integer,
    a token that is none being refused without any effect on the elements
    before or after it.  [Set] does not trim: the rendering of an integer
    with a space before it is refused by [Set], and accepted, with the
    value of the integer, as an element of a batch by [SetMulti]. *)
Theorem X4_Set_sequences :
  (∀ raws (p : stringsParam) h old,
     h !! into p = Some old →
     ∃ h',
       SetAll stringsParam_Set raws (p, h) = Done () (p, h') ∧
       SetAll StringsArg_Set raws (p, h) = Done () (p, h') ∧
       h' !! into p = Some (old ++ raws)) ∧
  (∀ raws (p : intsParam) h old,
     h !! into p = Some old →
     ∃ h',
       SetAll intsParam_Set raws (p, h) = Done () (p, h') ∧
       SetAll IntsArg_Set raws (p, h) = Done () (p, h') ∧
       h' !! into p = Some (old ++ omap base10 raws)) ∧
  (∀ z (p : intsParam) h,
     - 2 ^ 63 ≤ z < 2 ^ 63 →
     (∃ e, intsParam_Set (String " " (Sprintf_v_int z)) (p, h) = Done (Some e) (p, h)) ∧
     intsParam_SetMulti [String " " (Sprintf_v_int z)] (p, h)
     = Done None (Param (fresh (dom h)), <[fresh (dom h) := [z]]> h)).
Proof.
  split_and!.
  - intros raws p h old Hold. eexists.
    split_and!; [by apply SetAll_stringsParam..|]. apply lookup_insert_eq.
  - intros raws p h old Hold. eexists.
    split_and!; [by apply SetAll_intsParam..|]. apply lookup_insert_eq.
  - intros z p h Hz. split.
    + destruct (base10_None_error _ (base10_leading_space (Sprintf_v_int z)))
        as (x & e & Hparse & _).
      exists (NumError e). unfold intsParam_Set. by rewrite Hparse.
    + assert (mapM base10 (trimmed [String " " (Sprintf_v_int z)]) = Some [z]) as Hbatch.
      { rewrite trimmed_cons, TrimSpace_space_plain by (by apply FormatInt_plain).
        rewrite decide_False by (by apply FormatInt_nonempty).
        change (trimmed []) with (@nil string).
        change (mapM base10 [Sprintf_v_int z])
          with (y ← base10 (strconv.FormatInt z 10); k ← Some []; mret (y :: k)).
        by rewrite base10_FormatInt. }
      unfold intsParam_SetMulti.
      pose proof (intsParam_SetMulti_range_spec [String " " (Sprintf_v_int z)] []) as Hloop.
      rewrite Hbatch in Hloop. by rewrite Hloop.
Qed.

Lemma X4_Set_sequences_witness :
  ({[1%positive := [5]]} : gmap positive (list Z)) !! into (Param 1 : intsParam) = Some [5] ∧
  ∃ h',
    SetAll intsParam_Set ["1"; "x"; " 2"; "3"] (Param 1, {[1%positive := [5]]})
    = Done () (Param 1, h') ∧
    SetAll IntsArg_Set ["1"; "x"; " 2"; "3"] (Param 1, {[1%positive := [5]]})
    = Done () (Param 1, h') ∧
    h' !! 1%positive = Some ([5] ++ omap base10 ["1"; "x"; " 2"; "3"]).
Proof.
  split; [reflexivity|].
  exact (proj1 (proj2 X4_Set_sequences) ["1"; "x"; " 2"; "3"] (Param 1)
           {[1%positive := [5]]} [5] eq_refl).
Defined.

(** ** The flags of an option *)

Lemma bytes_app (a b : string) : bytes (a +:+ b) = bytes a ++ bytes b.
Proof.
  induction a as [|c a IH]; [done|].
  change (String c a +:+ b) with (String c (a +:+ b)). simpl. by rewrite IH.
Qed.

Lemma Split_length s sep :
  length (strings.Split s sep) = Datatypes.S (length (filter (λ c, c = sep) (bytes s))).
Proof.
  induction s as [|c s IH]; [done|]. simpl. rewrite filter_cons.
  case_decide as Hc; simpl; [by rewrite IH|].
  destruct (strings.Split s sep) as [|piece pieces] eqn:E; [done|]. by rewrite <- IH.
Qed.

Lemma Split_pieces_no_sep s sep :
  Forall (λ piece, sep ∉ bytes piece) (strings.Split s sep).
Proof.
  induction s as [|c s IH]; simpl.
  - repeat constructor. by intros ?%elem_of_nil.
  - case_decide as Hc.
    + constructor; [by intros ?%elem_of_nil|done].
    + destruct (strings.Split s sep) as [|piece pieces]; simpl.
      * repeat constructor. simpl. rewrite elem_of_cons, elem_of_nil.
        intros [?|[]]. by subst.
      * inversion IH; subst. constructor; [|done].
        simpl. rewrite not_elem_of_cons. split; [by intros ->|done].
Qed.

Lemma optPrefix_cases name :
  (String.length name ≤ 1)%nat ∧ optPrefix name = "-" ∨
  (1 < String.length name)%nat ∧ optPrefix name = "--".
Proof. unfold optPrefix. case_decide; [right|left]; split; done || lia. Qed.

Lemma optPrefix_inj name1 name2 :
  optPrefix name1 +:+ name1 = optPrefix name2 +:+ name2 → name1 = name2.
Proof.
  destruct (optPrefix_cases name1) as [[H1 ->]|[H1 ->]],
           (optPrefix_cases name2) as [[H2 ->]|[H2 ->]]; intros Heq.
  - change (String "-" name1 = String "-" name2) in Heq. by injection Heq.
  - change (String "-" name1 = String "-" (String "-" name2)) in Heq.
    injection Heq as ->. simpl in H1. lia.
  - change (String "-" (String "-" name1) = String "-" name2) in Heq.
    injection Heq as <-. simpl in H2. lia.
  - change (String "-" (String "-" name1) = String "-" (String "-" name2)) in Heq.
    by injection Heq.
Qed.

(** X5: [mkOptStrs] gives one flag for every token of the name
    specification, so one more than it has spaces; every flag begins
    with a dash and holds no space; and two positions hold the same flag
    only when they hold the same token, so that different names never
    share a flag. *)
Theorem X5_mkOptStrs_flags (optName : string) :
  length (mkOptStrs optName)
  = Datatypes.S (length (filter (λ c, c = " "%char) (bytes optName))) ∧
  Forall (λ flag, (∃ rest, flag = String "-" rest) ∧ " "%char ∉ bytes flag)
    (mkOptStrs optName) ∧
  ∀ i j flag,
    mkOptStrs optName !! i = Some flag →
    mkOptStrs optName !! j = Some flag →
    strings.Split optName " " !! i = strings.Split optName " " !! j.
Proof.
  rewrite mkOptStrs_map. split_and!.
  - by rewrite length_fmap, Split_length.
  - apply Forall_fmap. eapply Forall_impl; [apply Split_pieces_no_sep|].
    intros name Hname. simpl. split.
    + destruct (optPrefix_cases name) as [[_ ->]|[_ ->]]; by eexists.
    + rewrite bytes_app, elem_of_app. intros [Hin|Hin]; [|done].
      destruct (optPrefix_cases name) as [[_ Hp]|[_ Hp]]; rewrite Hp in Hin;
        simpl in Hin; rewrite ?elem_of_cons, elem_of_nil in Hin;
        destruct_or!; done.
  - intros i j flag. rewrite !list_lookup_fmap.
    destruct (strings.Split optName " " !! i) as [name1|]; [|done].
    destruct (strings.Split optName " " !! j) as [name2|]; [|done].
    simpl. intros [= <-] [= Heq]. f_equal. symmetry. by apply optPrefix_inj.
Qed.

Lemma X5_mkOptStrs_flags_witness :
  mkOptStrs "f f" !! 0%nat = Some "-f" ∧
  mkOptStrs "f f" !! 1%nat = Some "-f" ∧
  strings.Split "f f" " " !! 0%nat = strings.Split "f f" " " !! 1%nat.
Proof.
  split; [reflexivity|]. split; [reflexivity|].
  exact (proj2 (proj2 (X5_mkOptStrs_flags "f f")) 0%nat 1%nat "-f" eq_refl eq_refl).
Defined.

(** ** Environment fallback, for any value *)

Lemma tryNames_unset {S} (into : Value S) env (s0 : S) names : ∀ s,
  Forall (λ ev, Getenv env ev = "") names →
  tryNames into env s0 names s = Done () s.
Proof.
  intros s. induction 1 as [|ev names Hev Hnames IH]; [done|].
  simpl. by rewrite decide_True.
Qed.

Lemma Getenv_empty key : Getenv ∅ key = "".
Proof. unfold Getenv. by rewrite lookup_empty. Qed.

(** X6: [setFromEnv] leaves the state as it is, and makes no call on the
    value, when none of the candidate names has a non-empty value: so for
    an empty name list, for an empty environment, and whenever every
    candidate is unset or set to the empty string.  This holds for every
    value, whatever its [Set] does. *)
Theorem X6_setFromEnv_unset {S} (into : Value S) (env : gmap string string) (s : S) :
  (∀ envVars,
     Forall (λ ev, Getenv env ev = "") (envNames envVars) →
     setFromEnv into env envVars s = Done () s) ∧
  (∀ envVars, setFromEnv into ∅ envVars s = Done () s) ∧
  setFromEnv into env "" s = Done () s.
Proof.
  split_and!.
  - intros envVars Hunset. rewrite setFromEnv_tryNames. by apply tryNames_unset.
  - intros envVars. rewrite setFromEnv_tryNames. apply tryNames_unset.
    apply Forall_forall. intros ev _. apply Getenv_empty.
  - done.
Qed.

Lemma X6_setFromEnv_unset_witness :
  Forall (λ ev, Getenv {["HOME" := "/root"; "B" := ""]} ev = "") (envNames "A B") ∧
  setFromEnv intValue {["HOME" := "/root"; "B" := ""]} "A B" (Param 1, {[1%positive := 3]})
  = Done () (Param 1, {[1%positive := 3]}).
Proof.
  assert (Forall (λ ev, Getenv {["HOME" := "/root"; "B" := ""]} ev = "") (envNames "A B"))
    as H by (repeat constructor).
  split; [exact H|].
  exact (proj1 (X6_setFromEnv_unset intValue {["HOME" := "/root"; "B" := ""]}
                  (Param 1, {[1%positive := 3]})) "A B" H).
Defined.

Lemma tryNames_env_ext {S} (into : Value S) env1 env2 (s0 : S) names : ∀ s,
  (∀ ev, ev ∈ names → Getenv env1 ev = Getenv env2 ev) →
  tryNames into env1 s0 names s = tryNames into env2 s0 names s.
Proof.
  induction names as [|ev names IH]; intros s Hagree; [done|].
  simpl. rewrite <- (Hagree ev) by (by left).
  case_decide; [apply IH; intros ev' Hev'; apply Hagree; by right|].
  unfold mbind, M_bind.
  destruct (envCall into s0 (Getenv env1 ev) s) as [[e|] s'|msg]; [|done..].
  apply IH. intros ev' Hev'. apply Hagree. by right.
Qed.

(** X7: the outcome of [setFromEnv] depends on the environment only
    through the variables named in the list: two environments that give
    the same value to every candidate name give the same outcome, for
    every value and every state. *)
Theorem X7_setFromEnv_reads_candidates_only {S} (into : Value S)
    (env1 env2 : gmap string string) (envVars : string) (s : S) :
  (∀ ev, ev ∈ envNames envVars → Getenv env1 ev = Getenv env2 ev) →
  setFromEnv into env1 envVars s = setFromEnv into env2 envVars s.
Proof. intros Hagree. rewrite !setFromEnv_tryNames. by apply tryNames_env_ext. Qed.

Lemma X7_setFromEnv_reads_candidates_only_witness :
  (∀ ev, ev ∈ envNames "A B" →
         Getenv {["B" := "5"; "C" := "x"]} ev = Getenv {["B" := "5"]} ev) ∧
  setFromEnv intValue {["B" := "5"; "C" := "x"]} "A B" (Param 1, {[1%positive := 0]})
  = setFromEnv intValue {["B" := "5"]} "A B" (Param 1, {[1%positive := 0]}).
Proof.
  assert (∀ ev, ev ∈ envNames "A B" →
                Getenv {["B" := "5"; "C" := "x"]} ev = Getenv {["B" := "5"]} ev) as H.
  { intros ev Hev. change (envNames "A B") with ["A"; "B"] in Hev.
    rewrite !elem_of_cons, elem_of_nil in Hev. destruct_or!; by subst. }
  split; [exact H|].
  exact (X7_setFromEnv_reads_candidates_only intValue {["B" := "5"; "C" := "x"]}
           {["B" := "5"]} "A B" (Param 1, {[1%positive := 0]}) H).
Defined.

Lemma VarOpt_envCall {S} (vo : VarOpt S) s v :
  envCall (VarOpt_asValue vo) s v s = envCall (VarOpt_Value vo) s v s.
Proof.
  unfold envCall, VarOpt_asValue, VarOpt_IsMultiValued, VarOpt_SetMulti, VarOpt_Set. simpl.
  destruct (as_multiValued (VarOpt_Value vo)) as [mv|]; [|done].
  destruct (IsMultiValued mv s) eqn:E; simpl; by rewrite ?E.
Qed.

Lemma VarArg_envCall {S} (va : VarArg S) s v :
  envCall (VarArg_asValue va) s v s = envCall (VarArg_Value va) s v s.
Proof.
  unfold envCall, VarArg_asValue, VarArg_IsMultiValued, VarArg_SetMulti, VarArg_Set. simpl.
  destruct (as_multiValued (VarArg_Value va)) as [mv|]; [|done].
  destruct (IsMultiValued mv s) eqn:E; simpl; by rewrite ?E.
Qed.

Lemma tryNames_same_calls {S} (into1 into2 : Value S) env (s : S) names :
  lawful into2 →
  (∀ v, envCall into1 s v s = envCall into2 s v s) →
  tryNames into1 env s names s = tryNames into2 env s names s.
Proof.
  intros Hlawful Hcalls. induction names as [|ev names IH]; [done|].
  simpl. case_decide; [done|]. unfold mbind, M_bind. rewrite Hcalls.
  destruct (envCall into2 s (Getenv env ev) s) as [[e|] s'|msg] eqn:Hcall; [|done..].
  by assert (s' = s) as -> by (by eapply envCall_atomic).
Qed.

(** X8: for a value that keeps the contract, environment fallback through
    a [VarOpt] or [VarArg] that wraps the value is environment fallback on
    the value itself: the wrapper's [SetMulti] is only called when the
    value is multi-valued, so that it does not panic. *)
Theorem X8_Var_setFromEnv {S} (vo : VarOpt S) (va : VarArg S)
    (env : gmap string string) (envVars : string) (s : S) :
  (lawful (VarOpt_Value vo) →
   setFromEnv (VarOpt_asValue vo) env envVars s
   = setFromEnv (VarOpt_Value vo) env envVars s) ∧
  (lawful (VarArg_Value va) →
   setFromEnv (VarArg_asValue va) env envVars s
   = setFromEnv (VarArg_Value va) env envVars s).
Proof.
  split; intros Hlawful; rewrite !setFromEnv_tryNames;
    apply tryNames_same_calls; try done; intros v.
  - apply VarOpt_envCall.
  - apply VarArg_envCall.
Qed.

Lemma X8_Var_setFromEnv_witness :
  lawful (VarOpt_Value (MkVarOpt "n" "" "N" intsValue false)) ∧
  setFromEnv (VarOpt_asValue (MkVarOpt "n" "" "N" intsValue false))
    {["N" := "1,2"]} "N" (Param 1, {[1%positive := []]})
  = setFromEnv intsValue {["N" := "1,2"]} "N" (Param 1, {[1%positive := []]}).
Proof.
  split; [exact intsValue_lawful|].
  exact (proj1 (X8_Var_setFromEnv (MkVarOpt "n" "" "N" intsValue false)
                  (MkVarArg "n" "" "N" intsValue false)
                  {["N" := "1,2"]} "N" (Param 1, {[1%positive := []]}))
           intsValue_lawful).
Defined.

(** ** Environment fallback, kind by kind *)

Lemma boolParam_Set_spec s (p : boolParam) h old :
  h !! into p = Some old →
  match boolLiteral s with
  | Some b => boolParam_Set s (p, h) = Done None (p, <[into p := b]> h)
  | None => ∃ e, boolParam_Set s (p, h) = Done (Some e) (p, h)
  end.
Proof.
  intros Hold. unfold boolParam_Set. rewrite ParseBool_boolLiteral.
  destruct (boolLiteral s) as [b|]; [|by eauto].
  unfold mbind, M_bind, mret, M_ret. by rewrite (store_Done _ _ old).
Qed.

Lemma stringParam_Set_Done s (p : stringParam) h old :
  h !! into p = Some old →
  stringParam_Set s (p, h) = Done None (p, <[into p := s]> h).
Proof.
  intros Hold. unfold stringParam_Set, mbind, M_bind, mret, M_ret.
  by rewrite (store_Done _ _ old).
Qed.

Lemma tryNames_int env names (p : intParam) h old :
  h !! into p = Some old →
  tryNames intValue env (p, h) names (p, h) =
  Done () (p, match head (omap (λ ev, base10 (Getenv env ev)) names) with
              | Some z => <[into p := z]> h
              | None => h
              end).
Proof.
  intros Hold. induction names as [|ev names IH]; [done|].
  cbn [tryNames omap list_omap]. case_decide as Hv.
  { rewrite Hv. change (base10 "") with (@None Z). exact IH. }
  unfold mbind, M_bind, envCall. simpl.
  pose proof (intParam_Set_spec (Getenv env ev) p h old Hold) as Hset.
  destruct (base10 (Getenv env ev)) as [z|].
  - by rewrite Hset.
  - destruct Hset as [e ->]. exact IH.
Qed.

(** X9: environment fallback on an integer parameter stores the value of
    the first candidate, from left to right, whose variable holds a
    decimal integer; candidates that are unset, empty or malformed are
    passed over, and when there is no such candidate the stored integer
    stays. *)
Theorem X9_setFromEnv_int (env : gmap string string) (envVars : string)
    (p : intParam) (h : gmap positive Z) (old : Z) :
  h !! into p = Some old →
  setFromEnv intValue env envVars (p, h) =
  Done () (p, match head (omap (λ ev, base10 (Getenv env ev)) (envNames envVars)) with
              | Some z => <[into p := z]> h
              | None => h
              end).
Proof. intros Hold. rewrite setFromEnv_tryNames. by eapply tryNames_int. Qed.

Lemma X9_setFromEnv_int_witness :
  ({[1%positive := 0]} : gmap positive Z) !! into (Param 1 : intParam) = Some 0 ∧
  setFromEnv intValue {["A" := "x"; "B" := "5"; "C" := "6"]} "A B C"
    (Param 1, {[1%positive := 0]})
  = Done () (Param 1,
       match head (omap (λ ev, base10 (Getenv {["A" := "x"; "B" := "5"; "C" := "6"]} ev))
                     (envNames "A B C")) with
       | Some z => <[1%positive := z]> {[1%positive := 0]}
       | None => {[1%positive := 0]}
       end).
Proof.
  split; [reflexivity|].
  exact (X9_setFromEnv_int {["A" := "x"; "B" := "5"; "C" := "6"]} "A B C"
           (Param 1) {[1%positive := 0]} 0 eq_refl).
Defined.

Lemma tryNames_bool env names (p : boolParam) h old :
  h !! into p = Some old →
  tryNames boolValue env (p, h) names (p, h) =
  Done () (p, match head (omap (λ ev, boolLiteral (Getenv env ev)) names) with
              | Some b => <[into p := b]> h
              | None => h
              end).
Proof.
  intros Hold. induction names as [|ev names IH]; [done|].
  cbn [tryNames omap list_omap]. case_decide as Hv.
  { rewrite Hv. change (boolLiteral "") with (@None bool). exact IH. }
  unfold mbind, M_bind, envCall. simpl.
  pose proof (boolParam_Set_spec (Getenv env ev) p h old Hold) as Hset.
  destruct (boolLiteral (Getenv env ev)) as [b|].
  - by rewrite Hset.
  - destruct Hset as [e ->]. exact IH.
Qed.

(** X10: environment fallback on a boolean parameter stores the value of
    the first candidate whose variable holds a boolean literal; the other
    candidates before it are passed over, and without such a candidate
    the stored boolean stays. *)
Theorem X10_setFromEnv_bool (env : gmap string string) (envVars : string)
    (p : boolParam) (h : gmap positive bool) (old : bool) :
  h !! into p = Some old →
  setFromEnv boolValue env envVars (p, h) =
  Done () (p, match head (omap (λ ev, boolLiteral (Getenv env ev)) (envNames envVars)) with
              | Some b => <[into p := b]> h
              | None => h
              end).
Proof. intros Hold. rewrite setFromEnv_tryNames. by eapply tryNames_bool. Qed.

Lemma X10_setFromEnv_bool_witness :
  ({[1%positive := false]} : gmap positive bool) !! into (Param 1 : boolParam) = Some false ∧
  setFromEnv boolValue {["A" := "yes"; "B" := "T"]} "A B" (Param 1, {[1%positive := false]})
  = Done () (Param 1,
       match head (omap (λ ev, boolLiteral (Getenv {["A" := "yes"; "B" := "T"]} ev))
                     (envNames "A B")) with
       | Some b => <[1%positive := b]> {[1%positive := false]}
       | None => {[1%positive := false]}
       end).
Proof.
  split; [reflexivity|].
  exact (X10_setFromEnv_bool {["A" := "yes"; "B" := "T"]} "A B"
           (Param 1) {[1%positive := false]} false eq_refl).
Defined.

Lemma tryNames_string env names (p : stringParam) h old :
  h !! into p = Some old →
  tryNames stringValue env (p, h) names (p, h) =
  Done () (p, match head (filter (λ v, v ≠ "") (Getenv env <$> names)) with
              | Some v => <[into p := v]> h
              | None => h
              end).
Proof.
  intros Hold. induction names as [|ev names IH]; [done|].
  rewrite fmap_cons, filter_cons. cbn [tryNames]. case_decide as Hv.
  { rewrite decide_False by (intros Hne; by apply Hne). exact IH. }
  rewrite decide_True by done.
  unfold mbind, M_bind, envCall. simpl.
  by rewrite (stringParam_Set_Done _ _ _ old).
Qed.

(** X11: environment fallback on a string parameter stores, as it is and
    without trimming or splitting, the value of the first candidate whose
    variable is set and not empty; without such a candidate the stored
    string stays. *)
Theorem X11_setFromEnv_string (env : gmap string string) (envVars : string)
    (p : stringParam) (h : gmap positive string) (old : string) :
  h !! into p = Some old →
  setFromEnv stringValue env envVars (p, h) =
  Done () (p, match head (filter (λ v, v ≠ "") (Getenv env <$> envNames envVars)) with
              | Some v => <[into p := v]> h
              | None => h
              end).
Proof. intros Hold. rewrite setFromEnv_tryNames. by eapply tryNames_string. Qed.

Lemma X11_setFromEnv_string_witness :
  ({[1%positive := "dflt"]} : gmap positive string) !! into (Param 1 : stringParam)
  = Some "dflt" ∧
  setFromEnv stringValue {["B" := " a,b "]} "A B" (Param 1, {[1%positive := "dflt"]})
  = Done () (Param 1,
       match head (filter (λ v, v ≠ "") (Getenv {["B" := " a,b "]} <$> envNames "A B")) with
       | Some v => <[1%positive := v]> {[1%positive := "dflt"]}
       | None => {[1%positive := "dflt"]}
       end).
Proof.
  split; [reflexivity|].
  exact (X11_setFromEnv_string {["B" := " a,b "]} "A B"
           (Param 1) {[1%positive := "dflt"]} "dflt" eq_refl).
Defined.

Lemma tryNames_strings env names (p : stringsParam) h :
  tryNames stringsValue env (p, h) names (p, h) =
  Done () match head (filter (λ v, v ≠ "") (Getenv env <$> names)) with
          | Some v =>
              (Param (fresh (dom h)),
               <[fresh (dom h) := strings.TrimSpace <$> strings.Split v ","]> h)
          | None => (p, h)
          end.
Proof.
  induction names as [|ev names IH]; [done|].
  rewrite fmap_cons, filter_cons. cbn [tryNames]. case_decide as Hv.
  { rewrite decide_False by (intros Hne; by apply Hne). exact IH. }
  rewrite decide_True by done.
  unfold mbind, M_bind, envCall, stringsValue.
  cbn [as_multiValued IsMultiValued SetMulti]. unfold stringsParam_IsMultiValued.
  by rewrite stringsParam_SetMulti_Done.
Qed.

(** X12: environment fallback on a repeated string parameter takes the
    first candidate whose variable is set and not empty, splits its value
    at the commas, trims the pieces and makes them, empty ones included,
    the parameter's sequence in a fresh variable; without such a
    candidate nothing changes.  It never fails and never looks at a later
    candidate. *)
Theorem X12_setFromEnv_strings (env : gmap string string) (envVars : string)
    (p : stringsParam) (h : gmap positive (list string)) :
  setFromEnv stringsValue env envVars (p, h) =
  Done () match head (filter (λ v, v ≠ "") (Getenv env <$> envNames envVars)) with
          | Some v =>
              (Param (fresh (dom h)),
               <[fresh (dom h) := strings.TrimSpace <$> strings.Split v ","]> h)
          | None => (p, h)
          end.
Proof. rewrite setFromEnv_tryNames. apply tryNames_strings. Qed.

Lemma tryNames_ints env names (p : intsParam) h :
  tryNames intsValue env (p, h) names (p, h) =
  Done () match head (omap (λ ev,
                        if decide (Getenv env ev = "") then None
                        else mapM base10 (trimmed (strings.Split (Getenv env ev) ",")))
                      names) with
          | Some ints => (Param (fresh (dom h)), <[fresh (dom h) := ints]> h)
          | None => (p, h)
          end.
Proof.
  induction names as [|ev names IH]; [done|].
  cbn [tryNames omap list_omap]. case_decide as Hv; [exact IH|].
  unfold mbind, M_bind, envCall, intsValue.
  cbn [as_multiValued IsMultiValued SetMulti]. unfold intsParam_IsMultiValued.
  unfold intsParam_SetMulti.
  pose proof (intsParam_SetMulti_range_spec (strings.Split (Getenv env ev) ",") []) as Hloop.
  destruct (mapM base10 (trimmed (strings.Split (Getenv env ev) ","))) as [ints|].
  - by rewrite Hloop.
  - destruct Hloop as [e ->]. exact IH.
Qed.

(** X13: environment fallback on a repeated integer parameter takes the
    first candidate whose variable is set, not empty, and whose pieces
    between commas all are, after trimming, empty or decimal integers; it
    makes the integers the parameter's sequence in a fresh variable.  A
    candidate with one malformed piece is passed over as a whole, and
    without an acceptable candidate nothing changes. *)
Theorem X13_setFromEnv_ints (env : gmap string string) (envVars : string)
    (p : intsParam) (h : gmap positive (list Z)) :
  setFromEnv intsValue env envVars (p, h) =
  Done () match head (omap (λ ev,
                        if decide (Getenv env ev = "") then None
                        else mapM base10 (trimmed (strings.Split (Getenv env ev) ",")))
                      (envNames envVars)) with
          | Some ints => (Param (fresh (dom h)), <[fresh (dom h) := ints]> h)
          | None => (p, h)
          end.
Proof. rewrite setFromEnv_tryNames. apply tryNames_ints. Qed.

Example setFromEnv_ints_skips_malformed :
  setFromEnv intsValue {["A" := "1,x"; "B" := " 2 ,,3"]} "A B" (Param 1, {[1%positive := [9]]})
  = Done () (Param 2, {[1%positive := [9]; 2%positive := [2; 3]]}).
Proof. by vm_compute. Qed.

(** ** Registration *)

Lemma foldl_insert_lookup (names : list string) (l : positive) : ∀ (idx : gmap string positive) k,
  foldl (λ idx name, <[name := l]> idx) idx names !! k
  = if decide (k ∈ names) then Some l else idx !! k.
Proof.
  induction names as [|name names IH]; intros idx k; cbn [foldl].
  - destruct (decide (k ∈ [])) as [Hin|_]; [by apply elem_of_nil in Hin|done].
  - rewrite IH. destruct (decide (k ∈ names)) as [Hin|Hnotin].
    + destruct (decide (k ∈ name :: names)) as [_|Hn]; [done|].
      destruct Hn. by right.
    + destruct (decide (k = name)) as [->|Hne].
      * destruct (decide (name ∈ name :: names)) as [_|Hn];
          [apply lookup_insert_eq|destruct Hn; by left].
      * destruct (decide (k ∈ name :: names)) as [Hin|_].
        { apply elem_of_cons in Hin as [?|?]; done. }
        by rewrite lookup_insert_ne.
Qed.

(** X14: when environment fallback on its value ends in state [s'],
    [mkOpt] puts a copy of the option, with the flags derived from its
    name, in a variable [l] of its own, appends [l] to the options of the
    command and lets every flag of the option point to [l] in the index;
    entries under other keys, among them those of options declared
    before, stay, while an entry under a flag that an earlier option
    also has is taken over.  The arguments are not touched.  When
    environment fallback panics, so does [mkOpt]. *)
Theorem X14_mkOpt {S} (env : gmap string string) (o : opt S) (w : world S) :
  (∀ s', setFromEnv (opt_value o) env (opt_envVar o) (values w) = Done () s' →
     ∃ l w',
       mkOpt env o w = Done () w' ∧
       optHeap w !! l = None ∧
       optHeap w' = <[l := Opt (opt_name o) (opt_desc o) (opt_envVar o)
                             (mkOptStrs (opt_name o)) (opt_hideValue o) (opt_value o)]>
                      (optHeap w) ∧
       options (cmd w') = options (cmd w) ++ [l] ∧
       (∀ k, optionsIdx (cmd w') !! k
             = if decide (k ∈ mkOptStrs (opt_name o)) then Some l
               else optionsIdx (cmd w) !! k) ∧
       args (cmd w') = args (cmd w) ∧ argsIdx (cmd w') = argsIdx (cmd w) ∧
       argHeap w' = argHeap w ∧ values w' = s') ∧
  (∀ msg, setFromEnv (opt_value o) env (opt_envVar o) (values w) = Panic msg →
     mkOpt env o w = Panic msg).
Proof.
  split.
  - intros s' Henv. unfold mkOpt. rewrite Henv.
    eexists (fresh (dom (optHeap w))), _. split; [reflexivity|].
    split_and!; try done.
    + apply fresh_None.
    + intros k. simpl. apply foldl_insert_lookup.
  - intros msg Henv. unfold mkOpt. by rewrite Henv.
Qed.

Lemma X14_mkOpt_witness :
  setFromEnv (opt_value (Opt "f force" "" "F" [] false intValue)) {["F" := "5"]}
    (opt_envVar (Opt "f force" "" "F" [] false intValue))
    (values (newWorld (Param 1, {[1%positive := 0]})))
  = Done () (Param 1, {[1%positive := 5]}) ∧
  ∃ l w',
    mkOpt {["F" := "5"]} (Opt "f force" "" "F" [] false intValue)
      (newWorld (Param 1, {[1%positive := 0]})) = Done () w' ∧
    options (cmd w') = [] ++ [l] ∧
    optionsIdx (cmd w') !! "--force" = Some l ∧
    values w' = (Param 1, {[1%positive := 5]}).
Proof.
  assert (setFromEnv intValue {["F" := "5"]} "F" (Param 1, {[1%positive := 0]})
          = Done () (Param 1, {[1%positive := 5]})) as H by (by vm_compute).
  split; [exact H|].
  destruct (proj1 (X14_mkOpt {["F" := "5"]} (Opt "f force" "" "F" [] false intValue)
                     (newWorld (Param 1, {[1%positive := 0]}))) _ H)
    as (l & w' & Hmk & _ & _ & Hopts & Hidx & _ & _ & _ & Hvals).
  exists l, w'. split_and!; [exact Hmk|exact Hopts| |exact Hvals].
  rewrite Hidx. reflexivity.
Defined.

Lemma mkOpt_consistent {S} env (o : opt S) (w w' : world S) :
  consistent w → mkOpt env o w = Done () w' →
  consistent w' ∧
  optNames w' = optNames w ++ [Some (opt_name o)] ∧ argNames w' = argNames w.
Proof.
  intros Hw Hmk. unfold mkOpt in Hmk.
  destruct (setFromEnv _ _ _ _) as [[] s'|msg]; [|done].
  injection Hmk as <-.
  pose proof (fresh_None (optHeap w)) as Hfresh.
  assert (∀ l', l' ∈ options (cmd w) → l' ≠ fresh (dom (optHeap w))) as Hold.
  { intros l' Hl' ->. apply (options_alloc w Hw) in Hl'. rewrite Hfresh in Hl'.
    by destruct Hl'. }
  split_and!.
  - split; simpl.
    + apply NoDup_app. split_and!; [apply (options_NoDup w Hw)| |apply NoDup_singleton].
      intros l' Hl' ->%list_elem_of_singleton. by eapply Hold.
    + intros l' [Hl'| ->%list_elem_of_singleton]%elem_of_app.
      * rewrite lookup_insert_ne by (apply not_eq_sym; by apply Hold).
        by apply (options_alloc w Hw).
      * rewrite lookup_insert_eq. by eexists.
    + intros k l0. rewrite foldl_insert_lookup. case_decide as Hk.
      * intros [= <-]. split; [apply elem_of_app; right; by left|].
        eexists. rewrite lookup_insert_eq. split_and!; done.
      * intros Hl0. destruct (optionsIdx_ok w Hw k l0 Hl0) as [Hin (o0 & Ho0 & Hnames)].
        split; [apply elem_of_app; by left|]. exists o0.
        rewrite lookup_insert_ne by (apply not_eq_sym; by apply Hold). done.
    + apply (args_NoDup w Hw).
    + apply (args_alloc w Hw).
    + apply (argsIdx_ok w Hw).
  - unfold optNames. simpl. rewrite fmap_app. simpl. rewrite lookup_insert_eq. simpl.
    f_equal. apply list_fmap_ext. intros i l' Hl'.
    rewrite lookup_insert_ne; [done|]. apply not_eq_sym, Hold.
    by eapply list_elem_of_lookup_2.
  - done.
Qed.

Lemma mkArg_consistent {S} env (a : arg S) (w w' : world S) :
  consistent w → mkArg env a w = Done () w' →
  consistent w' ∧
  optNames w' = optNames w ∧ argNames w' = argNames w ++ [Some (arg_name a)].
Proof.
  intros Hw Hmk. unfold mkArg in Hmk.
  destruct (setFromEnv _ _ _ _) as [[] s'|msg]; [|done].
  injection Hmk as <-.
  pose proof (fresh_None (argHeap w)) as Hfresh.
  assert (∀ l', l' ∈ args (cmd w) → l' ≠ fresh (dom (argHeap w))) as Hold.
  { intros l' Hl' ->. apply (args_alloc w Hw) in Hl'. rewrite Hfresh in Hl'.
    by destruct Hl'. }
  split_and!.
  - split; simpl.
    + apply (options_NoDup w Hw).
    + apply (options_alloc w Hw).
    + apply (optionsIdx_ok w Hw).
    + apply NoDup_app. split_and!; [apply (args_NoDup w Hw)| |apply NoDup_singleton].
      intros l' Hl' ->%list_elem_of_singleton. by eapply Hold.
    + intros l' [Hl'| ->%list_elem_of_singleton]%elem_of_app.
      * rewrite lookup_insert_ne by (apply not_eq_sym; by apply Hold).
        by apply (args_alloc w Hw).
      * rewrite lookup_insert_eq. by eexists.
    + intros k l0. destruct (decide (k = arg_name a)) as [->|Hk].
      * rewrite lookup_insert_eq. intros [= <-].
        split; [apply elem_of_app; right; by left|].
        exists a. by rewrite lookup_insert_eq.
      * rewrite lookup_insert_ne by done. intros Hl0.
        destruct (argsIdx_ok w Hw k l0 Hl0) as [Hin (a0 & Ha0 & Hname)].
        split; [apply elem_of_app; by left|]. exists a0.
        rewrite lookup_insert_ne by (apply not_eq_sym; by apply Hold). done.
  - done.
  - unfold argNames. simpl. rewrite fmap_app. simpl. rewrite lookup_insert_eq. simpl.
    f_equal. apply list_fmap_ext. intros i l' Hl'.
    rewrite lookup_insert_ne; [done|]. apply not_eq_sym, Hold.
    by eapply list_elem_of_lookup_2.
Qed.

Lemma newWorld_consistent {S} (s : S) : consistent (newWorld s).
Proof.
  split; simpl; try apply NoDup_nil_2; try (by intros l ?%elem_of_nil);
    by intros k l; rewrite lookup_empty.
Qed.

Lemma declare_consistent {S} env (ds : list (decl S)) : ∀ w w',
  consistent w → declare env ds w = Done () w' →
  consistent w' ∧
  optNames w' = optNames w ++ (Some <$> declaredOpts ds) ∧
  argNames w' = argNames w ++ (Some <$> declaredArgs ds).
Proof.
  induction ds as [|[o|a] ds IH]; intros w w' Hw Hdecl.
  - injection Hdecl as <-. by rewrite !app_nil_r.
  - cbn [declare] in Hdecl. unfold mbind, M_bind in Hdecl.
    destruct (mkOpt env o w) as [[] w1|msg] eqn:Hmk; [|done].
    destruct (mkOpt_consistent env o w w1 Hw Hmk) as (Hw1 & Hopts & Hargs).
    destruct (IH w1 w' Hw1 Hdecl) as (Hw' & Hopts' & Hargs').
    split_and!; [done|..].
    + rewrite Hopts', Hopts. unfold declaredOpts. simpl. by rewrite <- app_assoc.
    + by rewrite Hargs', Hargs.
  - cbn [declare] in Hdecl. unfold mbind, M_bind in Hdecl.
    destruct (mkArg env a w) as [[] w1|msg] eqn:Hmk; [|done].
    destruct (mkArg_consistent env a w w1 Hw Hmk) as (Hw1 & Hopts & Hargs).
    destruct (IH w1 w' Hw1 Hdecl) as (Hw' & Hopts' & Hargs').
    split_and!; [done|..].
    + by rewrite Hopts', Hopts.
    + rewrite Hargs', Hargs. unfold declaredArgs. simpl. by rewrite <- app_assoc.
Qed.

(** X15: after any sequence of declarations of options and arguments on a
    new command, the command is consistent: the options and the arguments
    are held once each, in the order of their declarations; every entry
    of the index of the options is under a key that begins with a dash and
    points to a declared option that has the key among the flags derived
    from its name; every entry of the index of the arguments points to a
    declared argument that has the key as its name. *)
Theorem X15_declare_consistent {S} (env : gmap string string) (ds : list (decl S))
    (s : S) (w : world S) :
  declare env ds (newWorld s) = Done () w →
  consistent w ∧
  optNames w = Some <$> declaredOpts ds ∧
  argNames w = Some <$> declaredArgs ds ∧
  ∀ k, is_Some (optionsIdx (cmd w) !! k) → ∃ rest, k = String "-" rest.
Proof.
  intros Hdecl.
  destruct (declare_consistent env ds (newWorld s) w (newWorld_consistent s) Hdecl)
    as (Hw & Hopts & Hargs).
  split_and!; [done..|].
  intros k [l Hl]. destruct (optionsIdx_ok w Hw k l Hl) as [_ (o & _ & Hk & Hnames)].
  rewrite Hnames, mkOptStrs_map in Hk.
  apply list_elem_of_fmap in Hk as (name & -> & _).
  destruct (optPrefix_cases name) as [[_ ->]|[_ ->]]; by eexists.
Qed.

Lemma X15_declare_consistent_witness :
  ∃ w,
    declare ∅
      [DeclOpt (Opt "f force" "" "" [] false stringValue);
       DeclArg (Arg "SRC" "" "" false stringValue)]
      (newWorld (Param 1, ∅)) = Done () w ∧
    consistent w ∧
    optNames w = [Some "f force"] ∧
    argNames w = [Some "SRC"].
Proof.
  eexists. split; [reflexivity|].
  match goal with
  | |- consistent ?w ∧ _ =>
      pose proof (X15_declare_consistent ∅
                    [DeclOpt (Opt "f force" "" "" [] false stringValue);
                     DeclArg (Arg "SRC" "" "" false stringValue)]
                    (Param 1, ∅) w eq_refl) as (H1 & H2 & H3 & _)
  end.
  split_and!; [exact H1|exact H2|exact H3].
Defined.

(** X16: [Cmd.VarOpt] and [Cmd.VarArg] declare the value without an
    environment variable list, so that the declaration never reads the
    environment and never calls [Set] or [SetMulti] on the value: it
    returns, leaves the state of the values as it is, and gives the same
    command in every environment.  (The query [IsMultiValued], which is
    still made, is a function of the state here.) *)
Theorem X16_Cmd_Var_no_env {S} (env : gmap string string) (name desc : string)
    (value : Value S) (w : world S) :
  (∃ w', Cmd_VarOpt env name value desc w = Done () w' ∧
         values w' = values w ∧
         ∀ env', Cmd_VarOpt env' name value desc w = Done () w') ∧
  (∃ w', Cmd_VarArg env name value desc w = Done () w' ∧
         values w' = values w ∧
         ∀ env', Cmd_VarArg env' name value desc w = Done () w').
Proof.
  split; eexists; (split; [reflexivity|]); split; done.
Qed.

(** ** Explicit values after environment fallback *)

(** X17: on the scalar kinds an accepted [Set] that follows environment
    fallback decides the stored value alone: the result is the same in
    every environment and for every list of variable names. *)
Theorem X17_Set_after_env_scalar (env : gmap string string) (envVars : string) :
  (∀ s z (p : intParam) h old,
     h !! into p = Some old → base10 s = Some z →
     (_ ← setFromEnv intValue env envVars; intParam_Set s) (p, h)
     = Done None (p, <[into p := z]> h)) ∧
  (∀ s b (p : boolParam) h old,
     h !! into p = Some old → boolLiteral s = Some b →
     (_ ← setFromEnv boolValue env envVars; boolParam_Set s) (p, h)
     = Done None (p, <[into p := b]> h)) ∧
  (∀ s (p : stringParam) h old,
     h !! into p = Some old →
     (_ ← setFromEnv stringValue env envVars; stringParam_Set s) (p, h)
     = Done None (p, <[into p := s]> h)).
Proof.
  split_and!.
  - intros s z p h old Hold Hs. unfold mbind, M_bind.
    rewrite setFromEnv_tryNames, (tryNames_int _ _ _ _ old) by done.
    destruct (head _) as [z0|].
    + pose proof (intParam_Set_spec s p (<[into p := z0]> h) z0 (lookup_insert_eq _ _ _)) as H.
      rewrite Hs in H. by rewrite H, insert_insert_eq.
    + pose proof (intParam_Set_spec s p h old Hold) as H. by rewrite Hs in H.
  - intros s b p h old Hold Hs. unfold mbind, M_bind.
    rewrite setFromEnv_tryNames, (tryNames_bool _ _ _ _ old) by done.
    destruct (head _) as [b0|].
    + pose proof (boolParam_Set_spec s p (<[into p := b0]> h) b0 (lookup_insert_eq _ _ _)) as H.
      rewrite Hs in H. by rewrite H, insert_insert_eq.
    + pose proof (boolParam_Set_spec s p h old Hold) as H. by rewrite Hs in H.
  - intros s p h old Hold. unfold mbind, M_bind.
    rewrite setFromEnv_tryNames, (tryNames_string _ _ _ _ old) by done.
    destruct (head _) as [v0|].
    + rewrite (stringParam_Set_Done _ _ _ v0) by apply lookup_insert_eq.
      by rewrite insert_insert_eq.
    + by rewrite (stringParam_Set_Done _ _ _ old).
Qed.

Lemma X17_Set_after_env_scalar_witness :
  ({[1%positive := 0]} : gmap positive Z) !! into (Param 1 : intParam) = Some 0 ∧
  base10 "7" = Some 7 ∧
  (_ ← setFromEnv intValue {["B" := "5"]} "A B"; intParam_Set "7")
    (Param 1, {[1%positive := 0]})
  = Done None (Param 1, <[1%positive := 7]> {[1%positive := 0]}).
Proof.
  split; [reflexivity|]. split; [reflexivity|].
  exact (proj1 (X17_Set_after_env_scalar {["B" := "5"]} "A B") "7" 7 (Param 1)
           {[1%positive := 0]} 0 eq_refl eq_refl).
Defined.

(** X18: on the repeated kinds a [Set] that follows environment fallback
    does not replace what is there: it appends its element to the sequence
    that fallback took from the environment or, when fallback took none,
    to the sequence that the parameter started with. *)
Theorem X18_Set_after_env_repeated (env : gmap string string) (envVars : string) :
  (∀ s (p : stringsParam) h old,
     h !! into p = Some old →
     match head (filter (λ v, v ≠ "") (Getenv env <$> envNames envVars)) with
     | Some v =>
         (_ ← setFromEnv stringsValue env envVars; stringsParam_Set s) (p, h)
         = Done None
             (Param (fresh (dom h)),
              <[fresh (dom h) := (strings.TrimSpace <$> strings.Split v ",") ++ [s]]> h)
     | None =>
         ∃ h',
           (_ ← setFromEnv stringsValue env envVars; stringsParam_Set s) (p, h)
           = Done None (p, h') ∧
           h' !! into p = Some (old ++ [s])
     end) ∧
  (∀ s z (p : intsParam) h old,
     h !! into p = Some old → base10 s = Some z →
     match head (omap (λ ev,
                   if decide (Getenv env ev = "") then None
                   else mapM base10 (trimmed (strings.Split (Getenv env ev) ",")))
                 (envNames envVars)) with
     | Some ints =>
         (_ ← setFromEnv intsValue env envVars; intsParam_Set s) (p, h)
         = Done None (Param (fresh (dom h)), <[fresh (dom h) := ints ++ [z]]> h)
     | None =>
         ∃ h',
           (_ ← setFromEnv intsValue env envVars; intsParam_Set s) (p, h)
           = Done None (p, h') ∧
           h' !! into p = Some (old ++ [z])
     end).
Proof.
  split.
  - intros s p h old Hold. unfold mbind, M_bind.
    rewrite setFromEnv_tryNames, tryNames_strings.
    destruct (head _) as [v|].
    + rewrite (stringsParam_Set_Done _ _ _ (strings.TrimSpace <$> strings.Split v ","))
        by apply lookup_insert_eq.
      simpl. by rewrite insert_insert_eq.
    + eexists. split; [by apply stringsParam_Set_Done|]. apply lookup_insert_eq.
  - intros s z p h old Hold Hs. unfold mbind, M_bind.
    rewrite setFromEnv_tryNames, tryNames_ints.
    destruct (head _) as [ints|].
    + pose proof (intsParam_Set_spec s (Param (fresh (dom h : gset positive)))
                    (<[fresh (dom h : gset positive) := ints]> h) ints
                    (lookup_insert_eq _ _ _)) as H.
      rewrite Hs in H. etrans; [exact H|]. simpl. by rewrite insert_insert_eq.
    + pose proof (intsParam_Set_spec s p h old Hold) as H. rewrite Hs in H.
      eexists. split; [exact H|]. apply lookup_insert_eq.
Qed.

Lemma X18_Set_after_env_repeated_witness :
  ({[1%positive := [9]]} : gmap positive (list Z)) !! into (Param 1 : intsParam) = Some [9] ∧
  base10 "3" = Some 3 ∧
  (_ ← setFromEnv intsValue {["B" := "1,2"]} "A B"; intsParam_Set "3")
    (Param 1, {[1%positive := [9]]})
  = Done None (Param 2, {[1%positive := [9]; 2%positive := [1; 2; 3]]}) ∧
  ∃ h',
    (_ ← setFromEnv intsValue ∅ "A B"; intsParam_Set "3") (Param 1, {[1%positive := [9]]})
    = Done None (Param 1, h') ∧
    h' !! 1%positive = Some [9; 3].
Proof.
  split; [reflexivity|]. split; [reflexivity|]. split.
  - exact (proj2 (X18_Set_after_env_repeated {["B" := "1,2"]} "A B") "3" 3 (Param 1)
             {[1%positive := [9]]} [9] eq_refl eq_refl).
  - exact (proj2 (X18_Set_after_env_repeated ∅ "A B") "3" 3 (Param 1)
             {[1%positive := [9]]} [9] eq_refl eq_refl).
Defined.
